(** * Turtle's Adventure: the game logic of [turtle_adventure.py]

    A shallow embedding of the classes of [src/turtle_adventure.py]
    (Waypoint, Home, Player, the four enemy classes, EnemyGenerator and
    the parts of TurtleAdventureGame they touch) and the properties the
    specification states about them.

    Number model.  Python's [int] and [float] coordinates are read as
    real numbers: [+], [-], [*], [/], [** 0.5], [math.cos], [math.sin]
    and [math.atan2] are the exact operations on [R], so rounding of
    binary floating point is outside the model.  The game level and the
    canvas size are Python [int]s and are kept in [Z].

    Randomness.  [random.randint] and [random.choice] read an explicit
    list of integers (the draws still to come); a computation that needs
    more draws than the list holds has no result. *)

From Stdlib Require Import String.
From Stdlib Require Import Reals Lra Lia ZArith List Bool.
Import ListNotations.

Open Scope R_scope.

(** ** Python comparisons on numbers *)

Module Num.

Definition Rleb (a b : R) : bool := if Rle_dec a b then true else false.
Definition Rltb (a b : R) : bool := if Rlt_dec a b then true else false.

(** The chained comparisons [a <= b <= c] and [a < b < c]. *)
Definition between_le (a b c : R) : bool := Rleb a b && Rleb b c.
Definition between_lt (a b c : R) : bool := Rltb a b && Rltb b c.

End Num.
Import Num.

(** ** [math.atan2]

    The two-argument arctangent of the C library, which [math.atan2]
    wraps, on the reals (no signed zeros): the angle in (-PI, PI] of the
    vector (x, y), and 0 for the null vector. *)

Definition atan2 (y x : R) : R :=
  if Rlt_dec 0 x then atan (y / x)
  else if Rlt_dec x 0 then
    (if Rle_dec 0 y then atan (y / x) + PI else atan (y / x) - PI)
  else if Rlt_dec 0 y then PI / 2
  else if Rlt_dec y 0 then - (PI / 2)
  else 0.

(** The Euclidean norm, [(dx ** 2 + dy ** 2) ** 0.5]. *)
Definition norm2 (dx dy : R) : R := sqrt (dx ^ 2 + dy ^ 2).

(** ** Game elements *)

(** [class Waypoint]: position and the private [__active] flag. *)
Record Waypoint := mkWaypoint {
  wp_x : R;
  wp_y : R;
  is_active : bool
}.

Definition activate (_ : Waypoint) (x y : R) : Waypoint := mkWaypoint x y true.
Definition deactivate (w : Waypoint) : Waypoint :=
  mkWaypoint (wp_x w) (wp_y w) false.

(** [class Home]: position and size. *)
Record Home := mkHome {
  home_x : R;
  home_y : R;
  home_size : R
}.

(** [Home.contains]. *)
Definition contains (h : Home) (x y : R) : bool :=
  let x1 := home_x h - home_size h / 2 in
  let x2 := home_x h + home_size h / 2 in
  let y1 := home_y h - home_size h / 2 in
  let y2 := home_y h + home_size h / 2 in
  between_le x1 x x2 && between_le y1 y y2.

(** [Enemy.hits_player], for an enemy at [(ex, ey)] of size [size] and
    the player at [(px, py)]. *)
Definition hits_player (ex ey size px py : R) : bool :=
  between_lt (ex - size / 2) px (ex + size / 2)
  && between_lt (ey - size / 2) py (ey + size / 2).

(** ** The turtle

    [RawTurtle] belongs to Python's standard library.  Its position and
    heading are kept here, with the heading in radians: [towards] is the
    bearing of a point, [forward] moves along the heading, [distance] is
    the Euclidean distance to a point. *)

Record Turtle := mkTurtle {
  xcor : R;
  ycor : R;
  heading : R
}.

Definition towards (t : Turtle) (x y : R) : R :=
  atan2 (y - ycor t) (x - xcor t).

Definition setheading (t : Turtle) (a : R) : Turtle :=
  mkTurtle (xcor t) (ycor t) a.

Definition forward (t : Turtle) (d : R) : Turtle :=
  mkTurtle (xcor t + d * cos (heading t)) (ycor t + d * sin (heading t))
           (heading t).

Definition distance (t : Turtle) (x y : R) : R :=
  norm2 (x - xcor t) (y - ycor t).

Definition setx (t : Turtle) (x : R) : Turtle := mkTurtle x (ycor t) (heading t).
Definition sety (t : Turtle) (y : R) : Turtle := mkTurtle (xcor t) y (heading t).

(** [class Player]: the turtle and the private [__speed]; [x] and [y]
    are the turtle's coordinates. *)
Record Player := mkPlayer {
  turtle : Turtle;
  speed : R
}.

Definition player_x (p : Player) : R := xcor (turtle p).
Definition player_y (p : Player) : R := ycor (turtle p).

(** ** Enemies *)

(** [RandomWalkEnemy]: [__state_x] and [__state_y] hold one of the
    bound methods named by the constructors below. *)
Inductive StateX := moving_right | moving_left.
Inductive StateY := moving_up | moving_down.

Record RandomWalkEnemy := mkRandomWalk {
  rw_x : R;
  rw_y : R;
  rw_size : R;
  rw_state_x : StateX;
  rw_state_y : StateY;
  rw_speed : R
}.

Record ChasingEnemy := mkChasing {
  ch_x : R;
  ch_y : R;
  ch_size : R;
  ch_speed : R
}.

Record FencingEnemy := mkFencing {
  fe_x : R;
  fe_y : R;
  fe_size : R;
  fe_speed : R;
  directions : list string;
  current_direction_index : nat;
  distance_from_home : R
}.

Record BossEnemy := mkBoss {
  bs_x : R;
  bs_y : R;
  bs_size : R;
  num_fake_homes : nat;
  bs_speed : R;
  growth_rate : R
}.

Inductive Enemy :=
| ERandomWalk (e : RandomWalkEnemy)
| EChasing (e : ChasingEnemy)
| EFencing (e : FencingEnemy)
| EBoss (e : BossEnemy).

(** ** The game *)

(** How the game stands: running, or stopped by [game_over_win] or
    [game_over_lose]. *)
Inductive Status := Running | YouWin | YouLose.

(** What [Game.add_element] has registered.  The waypoint and the
    player are the game's own fields, an enemy is named by its index in
    [enemies] (the list and the registry share the object), a home is
    never changed once built and is kept by value. *)
Inductive Element :=
| ElWaypoint
| ElHome (h : Home)
| ElPlayer
| ElEnemy (i : nat).

Record Game := mkGame {
  canvas_width : Z;       (* canvas.winfo_width() *)
  canvas_height : Z;      (* canvas.winfo_height() *)
  level : Z;
  waypoint : Waypoint;
  home : Home;
  player : Player;
  enemies : list Enemy;
  elements : list Element;
  status : Status;
  scheduled : list Z      (* delays handed to Game.after, newest last *)
}.

Definition with_player (g : Game) (p : Player) : Game :=
  mkGame (canvas_width g) (canvas_height g) (level g) (waypoint g) (home g) p
         (enemies g) (elements g) (status g) (scheduled g).

Definition with_waypoint (g : Game) (w : Waypoint) : Game :=
  mkGame (canvas_width g) (canvas_height g) (level g) w (home g) (player g)
         (enemies g) (elements g) (status g) (scheduled g).

Definition with_status (g : Game) (s : Status) : Game :=
  mkGame (canvas_width g) (canvas_height g) (level g) (waypoint g) (home g)
         (player g) (enemies g) (elements g) s (scheduled g).

(** Modelled from the spec: [Game.add_element] of gamelib, which is not
    under src/; entities are created and registered with the game, so
    the element joins the end of the registry. *)
Definition add_element (g : Game) (e : Element) : Game :=
  mkGame (canvas_width g) (canvas_height g) (level g) (waypoint g) (home g)
         (player g) (enemies g) (elements g ++ [e]) (status g) (scheduled g).

(** Modelled from the spec: [Game.after] of gamelib, which is not under
    src/; the generator reschedules itself through the host's timer, so
    the delay joins the pending timers. *)
Definition after (g : Game) (ms : Z) : Game :=
  mkGame (canvas_width g) (canvas_height g) (level g) (waypoint g) (home g)
         (player g) (enemies g) (elements g) (status g) (scheduled g ++ [ms]).

(** [TurtleAdventureGame.add_enemy]. *)
Definition add_enemy (g : Game) (e : Enemy) : Game :=
  let i := length (enemies g) in
  let g1 :=
    mkGame (canvas_width g) (canvas_height g) (level g) (waypoint g) (home g)
           (player g) (enemies g ++ [e]) (elements g) (status g) (scheduled g) in
  add_element g1 (ElEnemy i).

(** [game_over_win] and [game_over_lose] stop the game. *)
Definition game_over_win (g : Game) : Game := with_status g YouWin.
Definition game_over_lose (g : Game) : Game := with_status g YouLose.

(** ** [Player.update] *)

Definition Player_update (g : Game) : Game :=
  let p := player g in
  let g1 := if contains (home g) (player_x p) (player_y p)
            then game_over_win g else g in
  let t := turtle p in
  let w := waypoint g1 in
  if is_active w then
    let t1 := setheading t (towards t (wp_x w) (wp_y w)) in
    let t2 := forward t1 (speed p) in
    let g2 := with_player g1 (mkPlayer t2 (speed p)) in
    if Rltb (distance t2 (wp_x w) (wp_y w)) (speed p)
    then with_waypoint g2 (deactivate w)
    else g2
  else g1.

(** ** Enemy updates

    Each [update] returns the enemy after the step and the game, which
    it stops through [game_over_lose] when the enemy hits the player. *)

Definition lose_if_hit (g : Game) (ex ey size : R) : Game :=
  if hits_player ex ey size (player_x (player g)) (player_y (player g))
  then game_over_lose g else g.

(** *** [RandomWalkEnemy] *)

Definition move_to (e : RandomWalkEnemy) (x y : R) : RandomWalkEnemy :=
  mkRandomWalk x y (rw_size e) (rw_state_x e) (rw_state_y e) (rw_speed e).

Definition set_state_x (e : RandomWalkEnemy) (s : StateX) : RandomWalkEnemy :=
  mkRandomWalk (rw_x e) (rw_y e) (rw_size e) s (rw_state_y e) (rw_speed e).

Definition set_state_y (e : RandomWalkEnemy) (s : StateY) : RandomWalkEnemy :=
  mkRandomWalk (rw_x e) (rw_y e) (rw_size e) (rw_state_x e) s (rw_speed e).

Definition RandomWalkEnemy_moving_up (g : Game) (e : RandomWalkEnemy) :=
  let e1 := move_to e (rw_x e) (rw_y e + rw_speed e) in
  if Rltb (IZR (canvas_height g)) (rw_y e1) then set_state_y e1 moving_down else e1.

Definition RandomWalkEnemy_moving_down (g : Game) (e : RandomWalkEnemy) :=
  let e1 := move_to e (rw_x e) (rw_y e - rw_speed e) in
  if Rltb (rw_y e1) 0 then set_state_y e1 moving_up else e1.

Definition RandomWalkEnemy_moving_right (g : Game) (e : RandomWalkEnemy) :=
  let e1 := move_to e (rw_x e + rw_speed e) (rw_y e) in
  if Rltb (IZR (canvas_width g)) (rw_x e1) then set_state_x e1 moving_left else e1.

Definition RandomWalkEnemy_moving_left (g : Game) (e : RandomWalkEnemy) :=
  let e1 := move_to e (rw_x e - rw_speed e) (rw_y e) in
  if Rltb (rw_x e1) 0 then set_state_x e1 moving_right else e1.

(** Calling the method held in [__state_x], in [__state_y]. *)
Definition call_state_x (g : Game) (e : RandomWalkEnemy) : RandomWalkEnemy :=
  match rw_state_x e with
  | moving_right => RandomWalkEnemy_moving_right g e
  | moving_left => RandomWalkEnemy_moving_left g e
  end.

Definition call_state_y (g : Game) (e : RandomWalkEnemy) : RandomWalkEnemy :=
  match rw_state_y e with
  | moving_up => RandomWalkEnemy_moving_up g e
  | moving_down => RandomWalkEnemy_moving_down g e
  end.

Definition RandomWalkEnemy_update (g : Game) (e : RandomWalkEnemy)
  : RandomWalkEnemy * Game :=
  let e1 := call_state_x g e in
  let e2 := call_state_y g e1 in
  (e2, lose_if_hit g (rw_x e2) (rw_y e2) (rw_size e2)).

(** *** [ChasingEnemy] *)

Definition ChasingEnemy_update (g : Game) (e : ChasingEnemy)
  : ChasingEnemy * Game :=
  let p := player g in
  let angle := atan2 (player_y p - ch_y e) (player_x p - ch_x e) in
  let x' := ch_x e + ch_speed e * cos angle in
  let y' := ch_y e + ch_speed e * sin angle in
  let e' := mkChasing x' y' (ch_size e) (ch_speed e) in
  (e', lose_if_hit g x' y' (ch_size e')).

(** *** [FencingEnemy] *)

Definition fe_set_x (e : FencingEnemy) (x : R) : FencingEnemy :=
  mkFencing x (fe_y e) (fe_size e) (fe_speed e) (directions e)
            (current_direction_index e) (distance_from_home e).

Definition fe_set_y (e : FencingEnemy) (y : R) : FencingEnemy :=
  mkFencing (fe_x e) y (fe_size e) (fe_speed e) (directions e)
            (current_direction_index e) (distance_from_home e).

(** [self.current_direction_index = (self.current_direction_index + 1) % 4] *)
Definition next_direction (e : FencingEnemy) : FencingEnemy :=
  mkFencing (fe_x e) (fe_y e) (fe_size e) (fe_speed e) (directions e)
            ((current_direction_index e + 1) mod 4)%nat (distance_from_home e).

(** One branch of the [if]/[elif] chain; an index outside [directions]
    raises [IndexError], which is [None] here. *)
Definition FencingEnemy_move (hm : Home) (e : FencingEnemy) : option FencingEnemy :=
  match nth_error (directions e) (current_direction_index e) with
  | None => None
  | Some direction =>
      Some
        (if (direction =? "right")%string then
           let e1 := fe_set_x e (fe_x e + fe_speed e) in
           if Rleb (home_x hm + distance_from_home e1) (fe_x e1)
           then next_direction e1 else e1
         else if (direction =? "down")%string then
           let e1 := fe_set_y e (fe_y e + fe_speed e) in
           if Rleb (home_y hm + distance_from_home e1) (fe_y e1)
           then next_direction e1 else e1
         else if (direction =? "left")%string then
           let e1 := fe_set_x e (fe_x e - fe_speed e) in
           if Rleb (fe_x e1) (home_x hm - distance_from_home e1)
           then next_direction e1 else e1
         else if (direction =? "up")%string then
           let e1 := fe_set_y e (fe_y e - fe_speed e) in
           if Rleb (fe_y e1) (home_y hm - distance_from_home e1)
           then next_direction e1 else e1
         else e)
  end.

Definition FencingEnemy_update (g : Game) (e : FencingEnemy)
  : option (FencingEnemy * Game) :=
  match FencingEnemy_move (home g) e with
  | None => None
  | Some e1 => Some (e1, lose_if_hit g (fe_x e1) (fe_y e1) (fe_size e1))
  end.

(** *** [BossEnemy] *)

Definition BossEnemy_update (g : Game) (e : BossEnemy) : BossEnemy * Game :=
  let p := player g in
  let angle := atan2 (player_y p - bs_y e) (player_x p - bs_x e) in
  let x' := bs_x e + bs_speed e * cos angle in
  let y' := bs_y e + bs_speed e * sin angle in
  let size' := bs_size e + growth_rate e in
  let speed' := bs_speed e + 1 / 1000 in
  let e' := mkBoss x' y' size' (num_fake_homes e) speed' (growth_rate e) in
  (e', lose_if_hit g x' y' size').

(** ** Random draws

    A computation that reads draws: it takes the list of draws still to
    come and gives its result with the rest of the list, or nothing when
    it raises or the list is too short. *)

Definition Rand (A : Type) : Type := list Z -> option (A * list Z).

Definition ret {A : Type} (a : A) : Rand A := fun s => Some (a, s).

Definition bind {A B : Type} (m : Rand A) (k : A -> Rand B) : Rand B :=
  fun s => match m s with
           | None => None
           | Some (a, s') => k a s'
           end.

Definition lift {A : Type} (o : option A) : Rand A :=
  fun s => match o with None => None | Some a => Some (a, s) end.

Notation "x <- m ;; k" := (bind m (fun x => k))
  (at level 61, m at next level, right associativity).
Notation "' p <- m ;; k" := (bind m (fun x => let 'p := x in k))
  (at level 61, p pattern, m at next level, right associativity).

(** [random.randint(a, b)]: an integer of [a..b], picked by the next
    draw; an empty range raises [ValueError]. *)
Definition randint (a b : Z) : Rand Z :=
  fun s => match s with
           | [] => None
           | z :: s' =>
               if (b <? a)%Z then None
               else Some ((a + z mod (b - a + 1))%Z, s')
           end.

(** [random.choice(seq)]: an element of [seq], picked by the next draw;
    an empty sequence raises [IndexError]. *)
Definition choice {A : Type} (seq : list A) : Rand A :=
  fun s => match s with
           | [] => None
           | z :: s' =>
               match nth_error seq (Z.to_nat (z mod Z.of_nat (length seq))) with
               | None => None
               | Some a => Some (a, s')
               end
           end.

(** ** Enemy constructors

    A new element stands at the origin until its position is assigned
    (the position of [GameElement], which gamelib defines); every
    constructor below is followed by such an assignment before the
    position is read. *)

Definition RandomWalkEnemy_init (size : R) : Rand RandomWalkEnemy :=
  state_x <- choice [moving_right; moving_left] ;;
  state_y <- choice [moving_up; moving_down] ;;
  ret (mkRandomWalk 0 0 size state_x state_y 3).

Definition ChasingEnemy_init (size : R) : ChasingEnemy :=
  mkChasing 0 0 size 3.

(** The constructor of [FencingEnemy] ends with a call of [update]. *)
Definition FencingEnemy_init (g : Game) (size : R) : option (FencingEnemy * Game) :=
  let distance_from_home := 50 in
  let e :=
    mkFencing (home_x (home g) + distance_from_home)
              (home_y (home g) + distance_from_home)
              size 5 ["right"; "down"; "left"; "up"]%string 0 distance_from_home in
  FencingEnemy_update g e.

(** The constructor of [BossEnemy] keeps the game it is given and sets
    the fields of the boss; it does not call [generate_fake_homes]. *)
Definition BossEnemy_init (g : Game) (size : R) : BossEnemy * Game :=
  (mkBoss 0 0 size 5 3 (7 / 10), g).

(** [BossEnemy.generate_fake_homes]: the loop over
    [range(self.num_fake_homes)]. *)
Fixpoint fake_homes_loop (n : nat) (width height : Z) (g : Game) : Rand Game :=
  match n with
  | O => ret g
  | S n' =>
      fake_home_x <- randint 0 width ;;
      fake_home_y <- randint 0 height ;;
      let fake_home := mkHome (IZR fake_home_x) (IZR fake_home_y) 20 in
      fake_homes_loop n' width height (add_element g (ElHome fake_home))
  end.

Definition generate_fake_homes (g : Game) (e : BossEnemy) : Rand Game :=
  fake_homes_loop (num_fake_homes e) (canvas_width g) (canvas_height g) g.

(** ** [EnemyGenerator.create_enemy] *)

Definition min_distance (level : Z) : Z := Z.max (250 - level * 10) 100.

(** The delay handed to [Game.after]. *)
Definition spawn_delay (level : Z) : Z := Z.max 200 (1000 - level * 10).

(** The [while True] loop: each round reads two draws and stops at the
    first point that is far enough from the player.  [rounds] bounds the
    number of rounds; [spawn_loop] allows as many as there are draws, so
    the loop only ends without a point when the draws run out, that is,
    when it has not stopped yet. *)
Fixpoint spawn_rounds (rounds : nat) (width height : Z) (px py : R) (min_dist : Z)
  : Rand (Z * Z) :=
  match rounds with
  | O => fun _ => None
  | S n =>
      random_x <- randint 0 width ;;
      random_y <- randint 0 height ;;
      let distance_to_player := norm2 (IZR random_x - px) (IZR random_y - py) in
      if Rleb (IZR min_dist) distance_to_player
      then ret (random_x, random_y)
      else spawn_rounds n width height px py min_dist
  end.

Definition spawn_loop (width height : Z) (px py : R) (min_dist : Z) : Rand (Z * Z) :=
  fun s => spawn_rounds (length s) width height px py min_dist s.

Definition Enemy_set_pos (e : Enemy) (x y : R) : Enemy :=
  match e with
  | ERandomWalk r => ERandomWalk (move_to r x y)
  | EChasing c => EChasing (mkChasing x y (ch_size c) (ch_speed c))
  | EFencing f => EFencing (fe_set_y (fe_set_x f x) y)
  | EBoss b =>
      EBoss (mkBoss x y (bs_size b) (num_fake_homes b) (bs_speed b) (growth_rate b))
  end.

Definition Enemy_x (e : Enemy) : R :=
  match e with
  | ERandomWalk r => rw_x r
  | EChasing c => ch_x c
  | EFencing f => fe_x f
  | EBoss b => bs_x b
  end.

Definition Enemy_y (e : Enemy) : R :=
  match e with
  | ERandomWalk r => rw_y r
  | EChasing c => ch_y c
  | EFencing f => fe_y f
  | EBoss b => bs_y b
  end.

(** The first part of [create_enemy]: the enemy of the level is built. *)
Definition build_enemy (level : Z) (g : Game) : Rand (Enemy * Game) :=
  let level_mod := (level mod 4)%Z in
  if (level_mod =? 1)%Z then
    new_enemy <- RandomWalkEnemy_init 20 ;;
    ret (ERandomWalk new_enemy, g)
  else if (level_mod =? 2)%Z then
    ret (EChasing (ChasingEnemy_init 20), g)
  else if (level_mod =? 3)%Z then
    '(new_enemy, g1) <- lift (FencingEnemy_init g 20) ;;
    ret (EFencing new_enemy, g1)
  else
    let '(new_enemy, g0) := BossEnemy_init g 20 in
    x <- randint 0 (canvas_width g) ;;
    y <- randint 0 (canvas_height g) ;;
    let new_enemy := mkBoss (IZR x) (IZR y) (bs_size new_enemy)
                       (num_fake_homes new_enemy) (bs_speed new_enemy)
                       (growth_rate new_enemy) in
    g1 <- generate_fake_homes g0 new_enemy ;;
    ret (EBoss new_enemy, g1).

(** The second part: the spawn point. *)
Definition pick_spawn (level : Z) (g : Game) (player_x player_y : R) : Rand (R * R) :=
  let level_mod := (level mod 4)%Z in
  if (level_mod =? 3)%Z then
    ret (home_x (home g) + 50, home_y (home g) + 50)
  else
    '(random_x, random_y) <-
      spawn_loop (canvas_width g) (canvas_height g) player_x player_y
                 (min_distance level) ;;
    ret (IZR random_x, IZR random_y).

Definition create_enemy (level : Z) (g : Game) : Rand Game :=
  let px := player_x (player g) in
  let py := player_y (player g) in
  '(new_enemy, g1) <- build_enemy level g ;;
  '(random_x, random_y) <- pick_spawn level g1 px py ;;
  let new_enemy := Enemy_set_pos new_enemy random_x random_y in
  let g2 := add_enemy g1 new_enemy in
  ret (after g2 (spawn_delay level)).

(** ** [TurtleAdventureGame.init_game]

    [width] and [height] are what [winfo_width] and [winfo_height]
    answer for the canvas. *)

Definition init_game (screen_width screen_height level width height : Z) : Rand Game :=
  let w := mkWaypoint 0 0 false in
  let h := mkHome (IZR (screen_width - 100)) (IZR (screen_height / 2)) 20 in
  let p := mkPlayer (mkTurtle 0 0 0) 5 in
  let g := mkGame width height level w h p []
             [ElWaypoint; ElHome h; ElPlayer] Running [] in
  g1 <- create_enemy level g ;;
  let t := sety (setx (turtle (player g1)) 50) (IZR (screen_height / 2)) in
  ret (with_player g1 (mkPlayer t (speed (player g1)))).

(** ** Reading [Player.update] *)

(** The win check, the first statement of [Player.update]. *)
Definition at_home (g : Game) : bool :=
  contains (home g) (player_x (player g)) (player_y (player g)).

(** The player's turtle after the step toward an active waypoint. *)
Definition stepped (g : Game) : Turtle :=
  let t := turtle (player g) in
  let w := waypoint g in
  forward (setheading t (towards t (wp_x w) (wp_y w))) (speed (player g)).

(** ** What an operation leaves alone *)

(** Two games agree on everything but the registry of elements. *)
Definition same_but_elements (g g' : Game) : Prop :=
  canvas_width g' = canvas_width g /\ canvas_height g' = canvas_height g /\
  level g' = level g /\ waypoint g' = waypoint g /\ home g' = home g /\
  player g' = player g /\ enemies g' = enemies g /\ status g' = status g /\
  scheduled g' = scheduled g.

(** What [create_enemy] leaves alone while it builds the enemy. *)
Definition same_setting (g g' : Game) : Prop :=
  canvas_width g' = canvas_width g /\ canvas_height g' = canvas_height g /\
  level g' = level g /\ waypoint g' = waypoint g /\ home g' = home g /\
  player g' = player g /\ enemies g' = enemies g /\ scheduled g' = scheduled g.

(** A fake home: size 20, at a point of the canvas. *)
Definition is_fake_home (width height : Z) (h : Home) : Prop :=
  home_size h = 20 /\
  exists x y : Z, (0 <= x <= width)%Z /\ (0 <= y <= height)%Z /\
                  home_x h = IZR x /\ home_y h = IZR y.

(** ** Reachable enemies *)

(** The random-walk enemies of a game whose canvas is [width] by
    [height]: built by the constructor and put on a point of the canvas
    by [create_enemy], then updated any number of times. *)
Inductive rw_reachable (width height : Z) : RandomWalkEnemy -> Prop :=
| rw_spawned (s s' : list Z) (e : RandomWalkEnemy) (x y : Z) :
    RandomWalkEnemy_init 20 s = Some (e, s') ->
    (0 <= x <= width)%Z -> (0 <= y <= height)%Z ->
    rw_reachable width height (move_to e (IZR x) (IZR y))
| rw_updated (g : Game) (e : RandomWalkEnemy) :
    canvas_width g = width -> canvas_height g = height ->
    rw_reachable width height e ->
    rw_reachable width height (fst (RandomWalkEnemy_update g e)).

(** What holds of them all: the speed is 3, and on each axis the enemy
    is on the canvas or one step past the edge it is moving away from. *)
Definition rw_inv (width height : Z) (e : RandomWalkEnemy) : Prop :=
  rw_speed e = 3 /\
  match rw_state_x e with
  | moving_right => -3 <= rw_x e <= IZR width
  | moving_left => 0 <= rw_x e <= IZR width + 3
  end /\
  match rw_state_y e with
  | moving_up => -3 <= rw_y e <= IZR height
  | moving_down => 0 <= rw_y e <= IZR height + 3
  end.

(** The fencing enemies around the home [hm]: the constructed one, the
    constructed one put on its spawn point by [create_enemy], and every
    update of those. *)
Inductive fe_reachable (hm : Home) : FencingEnemy -> Prop :=
| fe_constructed (g g' : Game) (size : R) (e : FencingEnemy) :
    home g = hm ->
    FencingEnemy_init g size = Some (e, g') ->
    fe_reachable hm e
| fe_placed (g g' : Game) (size : R) (e : FencingEnemy) :
    home g = hm ->
    FencingEnemy_init g size = Some (e, g') ->
    fe_reachable hm (fe_set_y (fe_set_x e (home_x hm + 50)) (home_y hm + 50))
| fe_updated (g g' : Game) (e e' : FencingEnemy) :
    home g = hm ->
    fe_reachable hm e ->
    FencingEnemy_update g e = Some (e', g') ->
    fe_reachable hm e'.

(** [n] updates in a row, as far as the position and the direction go. *)
Fixpoint fe_steps (hm : Home) (n : nat) (e : FencingEnemy) : option FencingEnemy :=
  match n with
  | O => Some e
  | S n' =>
      match FencingEnemy_move hm e with
      | None => None
      | Some e1 => fe_steps hm n' e1
      end
  end.

(** What holds of them all: the fields the constructor sets stay as
    they are, and the enemy is on the side of the square that goes with
    its direction, up to one step (5) past the corner. *)
Definition fe_inv (hm : Home) (e : FencingEnemy) : Prop :=
  fe_speed e = 5 /\
  directions e = ["right"; "down"; "left"; "up"]%string /\
  distance_from_home e = 50 /\
  let dx := fe_x e - home_x hm in
  let dy := fe_y e - home_y hm in
  match current_direction_index e with
  | 0%nat => -55 <= dx <= 50 /\ -55 <= dy <= -50
  | 1%nat => 50 <= dx <= 55 /\ -55 <= dy <= 50
  | 2%nat => -50 <= dx <= 55 /\ 50 <= dy <= 55
  | 3%nat => -55 <= dx <= -50 /\ -50 <= dy <= 55
  | _ => False
  end.

(** How far the enemy is from the line where it turns. *)
Definition fe_to_go (hm : Home) (e : FencingEnemy) : R :=
  match current_direction_index e with
  | 0%nat => home_x hm + 50 - fe_x e
  | 1%nat => home_y hm + 50 - fe_y e
  | 2%nat => fe_x e - (home_x hm - 50)
  | _ => fe_y e - (home_y hm - 50)
  end.

(** * Sample games *)

(** A game on an 800 x 500 canvas, home at (700, 250), with the player
    at the origin heading for an active waypoint at (7, 0). *)
Definition game_near_waypoint : Game :=
  mkGame 800 500 1 (mkWaypoint 7 0 true) (mkHome 700 250 20)
         (mkPlayer (mkTurtle 0 0 0) 5) [] [ElWaypoint; ElHome (mkHome 700 250 20); ElPlayer]
         Running [].

(** The same game at its start: the waypoint is not active and the
    player stands at (50, 250). *)
Definition game_idle : Game :=
  mkGame 800 500 1 (mkWaypoint 0 0 false) (mkHome 700 250 20)
         (mkPlayer (mkTurtle 50 250 0) 5) [] [ElWaypoint; ElHome (mkHome 700 250 20); ElPlayer]
         Running [].

(** The level 2 game on an 800 x 500 screen right after [init_game],
    for the draws 300 and 400. *)
Definition game_started : Game :=
  mkGame 800 500 2 (mkWaypoint 0 0 false) (mkHome 700 250 20)
         (mkPlayer (mkTurtle 50 250 0) 5)
         [EChasing (mkChasing 300 400 20 3)]
         [ElWaypoint; ElHome (mkHome 700 250 20); ElPlayer; ElEnemy 0]
         Running [980%Z].

(** The start of a level 2 game and of a level 4 game. *)
Definition game_chase : Game :=
  mkGame 800 500 2 (mkWaypoint 0 0 false) (mkHome 700 250 20)
         (mkPlayer (mkTurtle 50 250 0) 5) [] [ElWaypoint; ElHome (mkHome 700 250 20); ElPlayer]
         Running [].

Definition game_boss : Game :=
  mkGame 800 500 4 (mkWaypoint 0 0 false) (mkHome 700 250 20)
         (mkPlayer (mkTurtle 50 250 0) 5) [] [ElWaypoint; ElHome (mkHome 700 250 20); ElPlayer]
         Running [].

(** A level 3 game: the player, on the way home, stands at (650, 350). *)
Definition game_fence : Game :=
  mkGame 800 500 3 (mkWaypoint 700 250 true) (mkHome 700 250 20)
         (mkPlayer (mkTurtle 650 350 0) 5) [] [ElWaypoint; ElHome (mkHome 700 250 20); ElPlayer]
         Running [].

(** Draws for one [create_enemy] of the level 4 game: the first place
    of the boss, five fake homes, the spawn point. *)
Definition boss_draws : list Z :=
  [10; 20; 100; 200; 300; 400; 500; 100; 600; 300; 700; 260; 300; 400]%Z.

(** The level 4 game after that [create_enemy]. *)
Definition game_boss_spawned : Game :=
  mkGame 800 500 4 (mkWaypoint 0 0 false) (mkHome 700 250 20)
         (mkPlayer (mkTurtle 50 250 0) 5)
         [EBoss (mkBoss 300 400 20 5 3 (7 / 10))]
         [ElWaypoint; ElHome (mkHome 700 250 20); ElPlayer;
          ElHome (mkHome 100 200 20); ElHome (mkHome 300 400 20);
          ElHome (mkHome 500 100 20); ElHome (mkHome 600 300 20);
          ElHome (mkHome 700 260 20); ElEnemy 0]
         Running [960%Z].

(** The level 4 game with the fake homes and no enemy yet. *)
Definition game_boss_homes : Game :=
  mkGame 800 500 4 (mkWaypoint 0 0 false) (mkHome 700 250 20)
         (mkPlayer (mkTurtle 50 250 0) 5) []
         [ElWaypoint; ElHome (mkHome 700 250 20); ElPlayer;
          ElHome (mkHome 100 200 20); ElHome (mkHome 300 400 20);
          ElHome (mkHome 500 100 20); ElHome (mkHome 600 300 20);
          ElHome (mkHome 700 260 20)]
         Running [].

(** The level 4 game with its five fake homes, later on: the player
    stands in the middle of the fake home at (300, 400). *)
Definition game_decoy : Game :=
  mkGame 800 500 4 (mkWaypoint 300 400 false) (mkHome 700 250 20)
         (mkPlayer (mkTurtle 300 400 0) 5)
         [EBoss (mkBoss 100 100 20 5 3 (7 / 10))]
         [ElWaypoint; ElHome (mkHome 700 250 20); ElPlayer;
          ElHome (mkHome 100 200 20); ElHome (mkHome 300 400 20);
          ElHome (mkHome 500 100 20); ElHome (mkHome 600 300 20);
          ElHome (mkHome 700 260 20); ElEnemy 0]
         Running [960%Z].

(** A random-walk enemy on the right edge of the 800 x 500 canvas,
    moving right. *)
Definition walker_on_edge : RandomWalkEnemy :=
  mkRandomWalk 800 100 20 moving_right moving_up 3.

(** The fencing enemy the constructor gives in [game_fence], and the
    same enemy on the spawn point [create_enemy] assigns to it. *)
Definition fence_constructed : FencingEnemy :=
  mkFencing (700 + 50 + 5) (250 + 50) 20 5 ["right"; "down"; "left"; "up"]%string 1 50.

Definition fence_placed : FencingEnemy :=
  mkFencing (700 + 50) (250 + 50) 20 5 ["right"; "down"; "left"; "up"]%string 1 50.

(** * More of the game *)

(** ** Ticks in a row *)

(** [n] calls of [Player.update], one per tick. *)
Fixpoint Player_updates (n : nat) (g : Game) : Game :=
  match n with
  | O => g
  | S n' => Player_updates n' (Player_update g)
  end.

(** The mouse binding of [init_game]: a click at [(x, y)] activates the
    waypoint there. *)
Definition click (g : Game) (x y : R) : Game :=
  with_waypoint g (activate (waypoint g) x y).

(** The player's distance to the waypoint. *)
Definition to_waypoint (g : Game) : R :=
  distance (turtle (player g)) (wp_x (waypoint g)) (wp_y (waypoint g)).

(** The distance from a chasing enemy, from a boss, to the player. *)
Definition chase_gap (g : Game) (e : ChasingEnemy) : R :=
  norm2 (player_x (player g) - ch_x e) (player_y (player g) - ch_y e).

Definition boss_gap (g : Game) (e : BossEnemy) : R :=
  norm2 (player_x (player g) - bs_x e) (player_y (player g) - bs_y e).

(** [n] updates of a chasing enemy, of a boss, in a row while nothing
    else changes the game: each update works on the game the one before
    has left. *)
Fixpoint ChasingEnemy_updates (n : nat) (g : Game) (e : ChasingEnemy)
  : ChasingEnemy * Game :=
  match n with
  | O => (e, g)
  | S n' =>
      let '(e1, g1) := ChasingEnemy_update g e in ChasingEnemy_updates n' g1 e1
  end.

Fixpoint BossEnemy_updates (n : nat) (g : Game) (e : BossEnemy)
  : BossEnemy * Game :=
  match n with
  | O => (e, g)
  | S n' =>
      let '(e1, g1) := BossEnemy_update g e in BossEnemy_updates n' g1 e1
  end.

(** The updates of a boss over the ticks of a game in which anything
    else may happen in between: the boss meets the games [gs] one after
    the other. *)
Fixpoint BossEnemy_over (gs : list Game) (e : BossEnemy) : BossEnemy :=
  match gs with
  | [] => e
  | g :: gs' => BossEnemy_over gs' (fst (BossEnemy_update g e))
  end.

(** ** What [create_enemy] builds *)

(** The enemy of a level: the class is picked by [level % 4], the size
    is 20, the speed is the one the constructor of the class sets. *)
Definition enemy_of_level (level : Z) (e : Enemy) : Prop :=
  match e with
  | ERandomWalk r => (level mod 4 = 1)%Z /\ rw_size r = 20 /\ rw_speed r = 3
  | EChasing c => (level mod 4 = 2)%Z /\ ch_size c = 20 /\ ch_speed c = 3
  | EFencing f =>
      (level mod 4 = 3)%Z /\ fe_size f = 20 /\ fe_speed f = 5 /\
      current_direction_index f = 1%nat
  | EBoss b =>
      (level mod 4 = 0)%Z /\ bs_size b = 20 /\ bs_speed b = 3 /\
      growth_rate b = 7 / 10
  end.

(** A small game: level 1 on a 100 x 100 canvas, the player in the
    middle. *)
Definition game_small : Game :=
  mkGame 100 100 1 (mkWaypoint 0 0 false) (mkHome 0 50 20)
         (mkPlayer (mkTurtle 50 50 0) 5) [] [ElWaypoint; ElHome (mkHome 0 50 20); ElPlayer]
         Running [].

(** A level 3 game with the player next to the corner of the fence. *)
Definition game_fence_corner : Game :=
  mkGame 800 500 3 (mkWaypoint 0 0 false) (mkHome 700 250 20)
         (mkPlayer (mkTurtle 750 300 0) 5) [] [ElWaypoint; ElHome (mkHome 700 250 20); ElPlayer]
         Running [].

(** ** Rendering

    Every [render] of an enemy hands [canvas.coords] the bounding box
    (x1, y1, x2, y2) of the oval it draws. *)

Definition Box : Type := R * R * R * R.

Definition RandomWalkEnemy_render (e : RandomWalkEnemy) : Box :=
  (rw_x e - rw_size e / 2, rw_y e - rw_size e / 2,
   rw_x e + rw_size e, rw_y e + rw_size e).

Definition ChasingEnemy_render (e : ChasingEnemy) : Box :=
  (ch_x e - ch_size e / 2, ch_y e - ch_size e / 2,
   ch_x e + ch_size e / 2, ch_y e + ch_size e / 2).

Definition FencingEnemy_render (e : FencingEnemy) : Box :=
  (fe_x e - fe_size e / 2, fe_y e - fe_size e / 2,
   fe_x e + fe_size e / 2, fe_y e + fe_size e / 2).

Definition BossEnemy_render (e : BossEnemy) : Box :=
  (bs_x e - bs_size e / 2, bs_y e - bs_size e / 2,
   bs_x e + bs_size e / 2, bs_y e + bs_size e / 2).

(** A point strictly inside a box, and strictly inside the oval that
    fills the box. *)
Definition in_box (b : Box) (x y : R) : Prop :=
  let '(x1, y1, x2, y2) := b in x1 < x < x2 /\ y1 < y < y2.

Definition in_oval (b : Box) (x y : R) : Prop :=
  let '(x1, y1, x2, y2) := b in
  let cx := (x1 + x2) / 2 in
  let cy := (y1 + y2) / 2 in
  let rx := (x2 - x1) / 2 in
  let ry := (y2 - y1) / 2 in
  (x - cx) ^ 2 * ry ^ 2 + (y - cy) ^ 2 * rx ^ 2 < rx ^ 2 * ry ^ 2.

(** ** The fencing enemy on its grid *)

(** The fencing enemy [i] steps of 5 right of, and [j] steps of 5 below,
    the corner (home.x - 50, home.y - 50), with direction index [idx]. *)
Definition fe_grid (hm : Home) (size : R) (c : Z * Z * nat) : FencingEnemy :=
  let '(i, j, idx) := c in
  mkFencing (home_x hm - 50 + 5 * IZR i) (home_y hm - 50 + 5 * IZR j) size 5
            ["right"; "down"; "left"; "up"]%string idx 50.

(** The move of [FencingEnemy.update] in these coordinates. *)
Definition grid_move (c : Z * Z * nat) : Z * Z * nat :=
  let '(i, j, idx) := c in
  match idx with
  | 0%nat => (i + 1, j, if 20 <=? i + 1 then 1%nat else 0%nat)%Z
  | 1%nat => (i, j + 1, if 20 <=? j + 1 then 2%nat else 1%nat)%Z
  | 2%nat => (i - 1, j, if i - 1 <=? 0 then 3%nat else 2%nat)%Z
  | 3%nat => (i, j - 1, if j - 1 <=? 0 then 0%nat else 3%nat)%Z
  | _ => c
  end.

Fixpoint grid_moves (n : nat) (c : Z * Z * nat) : Z * Z * nat :=
  match n with
  | O => c
  | S n' => grid_moves n' (grid_move c)
  end.

(** The cells of the square of half-side 50, each with the direction
    the enemy has there. *)
Definition on_square (c : Z * Z * nat) : Prop :=
  let '(i, j, idx) := c in
  match idx with
  | 0%nat => (0 <= i <= 19)%Z /\ j = 0%Z
  | 1%nat => i = 20%Z /\ (0 <= j <= 19)%Z
  | 2%nat => (1 <= i <= 20)%Z /\ j = 20%Z
  | 3%nat => i = 0%Z /\ (1 <= j <= 20)%Z
  | _ => False
  end.

(** * Properties *)

(** ** Comparisons *)

Section NumFacts.

Lemma Rleb_true (a b : R) : Rleb a b = true <-> a <= b.
Proof. unfold Rleb. destruct (Rle_dec a b); split; intros; auto; discriminate. Qed.

Lemma Rleb_false (a b : R) : Rleb a b = false <-> b < a.
Proof.
  unfold Rleb. destruct (Rle_dec a b); split; intros; auto; try discriminate; lra.
Qed.

Lemma Rltb_true (a b : R) : Rltb a b = true <-> a < b.
Proof. unfold Rltb. destruct (Rlt_dec a b); split; intros; auto; discriminate. Qed.

Lemma Rltb_false (a b : R) : Rltb a b = false <-> b <= a.
Proof.
  unfold Rltb. destruct (Rlt_dec a b); split; intros; auto; try discriminate; lra.
Qed.

Lemma between_le_true (a b c : R) : between_le a b c = true <-> a <= b <= c.
Proof.
  unfold between_le. rewrite andb_true_iff, !Rleb_true. tauto.
Qed.

Lemma between_lt_true (a b c : R) : between_lt a b c = true <-> a < b < c.
Proof.
  unfold between_lt. rewrite andb_true_iff, !Rltb_true. tauto.
Qed.


End NumFacts.

(** Decides the comparisons between closed numerals in the goal. *)
Ltac cmp :=
  repeat match goal with
  | |- context [Rleb ?a ?b] =>
      first [ replace (Rleb a b) with true by (symmetry; apply Rleb_true; lra)
            | replace (Rleb a b) with false by (symmetry; apply Rleb_false; lra) ]
  | |- context [Rltb ?a ?b] =>
      first [ replace (Rltb a b) with true by (symmetry; apply Rltb_true; lra)
            | replace (Rltb a b) with false by (symmetry; apply Rltb_false; lra) ]
  end.

(** ** Containment and collision (C2) *)

Lemma contains_closed_box (h : Home) (x y : R) :
  contains h x y = true <->
  home_x h - home_size h / 2 <= x <= home_x h + home_size h / 2 /\
  home_y h - home_size h / 2 <= y <= home_y h + home_size h / 2.
Proof.
  unfold contains. cbv zeta.
  rewrite andb_true_iff, !between_le_true. tauto.
Qed.

Lemma contains_false (h : Home) (x y : R) :
  contains h x y = false <->
  ~ (home_x h - home_size h / 2 <= x <= home_x h + home_size h / 2 /\
     home_y h - home_size h / 2 <= y <= home_y h + home_size h / 2).
Proof.
  rewrite <- contains_closed_box.
  destruct (contains h x y); split; intros; try easy.
Qed.

Lemma hits_player_open_box (ex ey size px py : R) :
  hits_player ex ey size px py = true <->
  ex - size / 2 < px < ex + size / 2 /\ ey - size / 2 < py < ey + size / 2.
Proof.
  unfold hits_player.
  rewrite andb_true_iff, !between_lt_true. tauto.
Qed.

(** C2, as stated, fails for [Enemy.hits_player]: an enemy of size 20 at
    the origin does not hit a player at (10, 0), a point on the right
    edge of the closed box of side 20 centred at the enemy. *)
Lemma C2_hits_player_edge_excluded :
  hits_player 0 0 20 10 0 = false /\
  (0 - 20 / 2 <= 10 <= 0 + 20 / 2 /\ 0 - 20 / 2 <= 0 <= 0 + 20 / 2).
Proof.
  split; [| lra].
  unfold hits_player, between_lt. cmp. reflexivity.
Qed.

(** C2, amended: [Home.contains] is true exactly on the closed box of
    side [size] centred at the home, and [Enemy.hits_player] is true
    exactly on the open box of side [size] centred at the enemy (a
    point on the edge counts for the home and not for the enemy). *)
Theorem C2_boxes :
  (forall (h : Home) (x y : R),
      contains h x y = true <->
      home_x h - home_size h / 2 <= x <= home_x h + home_size h / 2 /\
      home_y h - home_size h / 2 <= y <= home_y h + home_size h / 2) /\
  (forall ex ey size px py : R,
      hits_player ex ey size px py = true <->
      ex - size / 2 < px < ex + size / 2 /\ ey - size / 2 < py < ey + size / 2).
Proof.
  split.
  - exact contains_closed_box.
  - exact hits_player_open_box.
Qed.

(** ** Distances and bearings *)

Section Geometry.

Lemma norm2_nonneg (dx dy : R) : 0 <= norm2 dx dy.
Proof. apply sqrt_pos. Qed.

Lemma sum_sqr_nonneg (dx dy : R) : 0 <= dx ^ 2 + dy ^ 2.
Proof. nra. Qed.

Lemma norm2_sqr (dx dy : R) : norm2 dx dy * norm2 dx dy = dx ^ 2 + dy ^ 2.
Proof. apply sqrt_sqrt, sum_sqr_nonneg. Qed.

Lemma norm2_is (dx dy s : R) : 0 <= s -> s * s = dx ^ 2 + dy ^ 2 -> norm2 dx dy = s.
Proof.
  intros Hs Hsq. unfold norm2. apply sqrt_lem_1; auto using sum_sqr_nonneg.
Qed.

Lemma norm2_le_iff (dx dy m : R) :
  0 <= m -> (m <= norm2 dx dy <-> m ^ 2 <= dx ^ 2 + dy ^ 2).
Proof.
  intros Hm. pose proof (norm2_nonneg dx dy) as Hn.
  pose proof (norm2_sqr dx dy) as Hs. split; intros H; nra.
Qed.

Lemma norm2_lt_iff (dx dy m : R) :
  0 <= m -> (norm2 dx dy < m <-> dx ^ 2 + dy ^ 2 < m ^ 2).
Proof.
  intros Hm. pose proof (norm2_nonneg dx dy) as Hn.
  pose proof (norm2_sqr dx dy) as Hs. split; intros H; nra.
Qed.

Lemma norm2_pos (dx dy : R) : dx <> 0 \/ dy <> 0 -> 0 < norm2 dx dy.
Proof.
  intros H. apply sqrt_lt_R0.
  destruct H as [H | H].
  - assert (0 < dx * dx) by (destruct (Rtotal_order dx 0) as [|[|]]; nra). nra.
  - assert (0 < dy * dy) by (destruct (Rtotal_order dy 0) as [|[|]]; nra). nra.
Qed.

(** The bearing of a point on the positive x axis is 0. *)
Lemma atan2_east (x : R) : 0 < x -> atan2 0 x = 0.
Proof.
  intros Hx. unfold atan2. destruct (Rlt_dec 0 x); [| lra].
  replace (0 / x) with 0 by (field; lra). apply atan_0.
Qed.

Lemma cos_sin_unit (a : R) : cos a ^ 2 + sin a ^ 2 = 1.
Proof.
  pose proof (sin2_cos2 a) as H. unfold Rsqr in H. lra.
Qed.

(** A step of length [d] along the bearing [a] covers the distance [d]. *)
Lemma step_length (d a : R) : 0 <= d -> norm2 (d * cos a) (d * sin a) = d.
Proof.
  intros Hd. apply norm2_is; auto.
  pose proof (cos_sin_unit a). nra.
Qed.

Lemma cos_shift_minus_PI (a : R) : cos (a - PI) = - cos a.
Proof. rewrite cos_minus, cos_PI, sin_PI. ring. Qed.

Lemma sin_shift_minus_PI (a : R) : sin (a - PI) = - sin a.
Proof. rewrite sin_minus, cos_PI, sin_PI. ring. Qed.

Lemma root_one_plus (t : R) : 0 < sqrt (1 + t²).
Proof. apply sqrt_lt_R0. unfold Rsqr. nra. Qed.

Lemma norm2_right_half (dx dy : R) :
  0 < dx -> norm2 dx dy = dx * sqrt (1 + (dy / dx)²).
Proof.
  intros Hx. pose proof (root_one_plus (dy / dx)) as Hr.
  apply norm2_is; [nra |].
  replace (dx * sqrt (1 + (dy / dx)²) * (dx * sqrt (1 + (dy / dx)²)))
    with (dx * dx * (sqrt (1 + (dy / dx)²) * sqrt (1 + (dy / dx)²))) by ring.
  rewrite sqrt_sqrt by (unfold Rsqr; nra).
  unfold Rsqr. field. lra.
Qed.

Lemma norm2_left_half (dx dy : R) :
  dx < 0 -> norm2 dx dy = - dx * sqrt (1 + (dy / dx)²).
Proof.
  intros Hx. pose proof (root_one_plus (dy / dx)) as Hr.
  apply norm2_is; [nra |].
  replace (- dx * sqrt (1 + (dy / dx)²) * (- dx * sqrt (1 + (dy / dx)²)))
    with (dx * dx * (sqrt (1 + (dy / dx)²) * sqrt (1 + (dy / dx)²))) by ring.
  rewrite sqrt_sqrt by (unfold Rsqr; nra).
  unfold Rsqr. field. lra.
Qed.

Lemma norm2_vertical (dy : R) : norm2 0 dy = Rabs dy.
Proof.
  apply norm2_is; [apply Rabs_pos |].
  unfold Rabs. destruct (Rcase_abs dy); ring.
Qed.

(** The bearing [atan2 dy dx] points along the vector [(dx, dy)]. *)
Lemma cos_atan2 (dx dy : R) :
  dx <> 0 \/ dy <> 0 -> cos (atan2 dy dx) = dx / norm2 dx dy.
Proof.
  intros Hne. unfold atan2.
  destruct (Rlt_dec 0 dx) as [Hpos | Hnpos].
  - rewrite cos_atan, norm2_right_half by assumption.
    pose proof (root_one_plus (dy / dx)). field. split; lra.
  - destruct (Rlt_dec dx 0) as [Hneg | Hnneg].
    + pose proof (root_one_plus (dy / dx)).
      rewrite norm2_left_half by assumption.
      destruct (Rle_dec 0 dy).
      * rewrite neg_cos, cos_atan. field. split; lra.
      * rewrite cos_shift_minus_PI, cos_atan. field. split; lra.
    + assert (dx = 0) by lra. subst dx.
      assert (Hdy : dy <> 0) by (destruct Hne; [lra | assumption]).
      pose proof (norm2_pos 0 dy Hne).
      destruct (Rlt_dec 0 dy).
      * rewrite cos_PI2. field. lra.
      * destruct (Rlt_dec dy 0); [| lra].
        rewrite cos_neg, cos_PI2. field. lra.
Qed.

Lemma sin_atan2 (dx dy : R) :
  dx <> 0 \/ dy <> 0 -> sin (atan2 dy dx) = dy / norm2 dx dy.
Proof.
  intros Hne. unfold atan2.
  destruct (Rlt_dec 0 dx) as [Hpos | Hnpos].
  - rewrite sin_atan, norm2_right_half by assumption.
    pose proof (root_one_plus (dy / dx)). field. split; lra.
  - destruct (Rlt_dec dx 0) as [Hneg | Hnneg].
    + pose proof (root_one_plus (dy / dx)).
      rewrite norm2_left_half by assumption.
      destruct (Rle_dec 0 dy).
      * rewrite neg_sin, sin_atan. field. split; lra.
      * rewrite sin_shift_minus_PI, sin_atan. field. split; lra.
    + assert (dx = 0) by lra. subst dx.
      assert (Hdy : dy <> 0) by (destruct Hne; [lra | assumption]).
      rewrite norm2_vertical.
      destruct (Rlt_dec 0 dy).
      * rewrite sin_PI2, Rabs_right by lra. field. lra.
      * destruct (Rlt_dec dy 0); [| lra].
        rewrite sin_neg, sin_PI2, Rabs_left by lra. field. lra.
Qed.

End Geometry.

(** ** [Player.update] (C3, C9, C10) *)

Section PlayerUpdate.

Lemma Player_update_status (g : Game) :
  status (Player_update g) = if at_home g then YouWin else status g.
Proof.
  unfold Player_update, at_home.
  destruct (contains _ _ _); cbn;
    destruct (is_active (waypoint g)); cbn;
    try destruct (Rltb _ _); reflexivity.
Qed.

Lemma Player_update_inactive (g : Game) :
  is_active (waypoint g) = false ->
  Player_update g = if at_home g then game_over_win g else g.
Proof.
  intros Hin. unfold Player_update, at_home.
  destruct (contains _ _ _); cbn; rewrite Hin; reflexivity.
Qed.

Lemma Player_update_player (g : Game) :
  is_active (waypoint g) = true ->
  player (Player_update g) = mkPlayer (stepped g) (speed (player g)).
Proof.
  intros Hact. unfold Player_update, stepped.
  destruct (contains _ _ _); cbn; rewrite Hact;
    destruct (Rltb _ _); reflexivity.
Qed.

Lemma Player_update_waypoint (g : Game) :
  is_active (waypoint g) = true ->
  waypoint (Player_update g) =
    if Rltb (distance (stepped g) (wp_x (waypoint g)) (wp_y (waypoint g)))
            (speed (player g))
    then deactivate (waypoint g) else waypoint g.
Proof.
  intros Hact. unfold Player_update, stepped.
  destruct (contains _ _ _); cbn; rewrite Hact;
    destruct (Rltb _ _); reflexivity.
Qed.

Lemma Player_update_frame (g : Game) :
  home (Player_update g) = home g /\
  enemies (Player_update g) = enemies g /\
  elements (Player_update g) = elements g /\
  level (Player_update g) = level g /\
  scheduled (Player_update g) = scheduled g.
Proof.
  unfold Player_update.
  destruct (contains _ _ _); cbn;
    destruct (is_active (waypoint g)); cbn;
    try destruct (Rltb _ _); cbn; auto.
Qed.

End PlayerUpdate.

Lemma stepped_near_waypoint : stepped game_near_waypoint = mkTurtle 5 0 0.
Proof.
  unfold stepped, game_near_waypoint, forward, setheading, towards. cbn.
  replace (0 - 0) with 0 by lra. replace (7 - 0) with 7 by lra.
  rewrite atan2_east by lra. rewrite cos_0, sin_0.
  f_equal; lra.
Qed.

(** C3, as stated, fails on "inactive exactly when the player reaches
    it": with speed 5, a player at (0, 0) and the waypoint at (7, 0),
    one update puts the player at (5, 0) and deactivates the waypoint,
    two units short of it. *)
Lemma C3_deactivated_before_arrival :
  let g' := Player_update game_near_waypoint in
  is_active (waypoint g') = false /\
  player_x (player g') = 5 /\ player_y (player g') = 0 /\
  wp_x (waypoint g') = 7 /\ wp_y (waypoint g') = 0 /\
  player_x (player g') <> wp_x (waypoint g').
Proof.
  cbv zeta.
  rewrite Player_update_player, Player_update_waypoint by reflexivity.
  rewrite stepped_near_waypoint.
  assert (Hd : Rltb (distance (mkTurtle 5 0 0) (wp_x (waypoint game_near_waypoint))
                       (wp_y (waypoint game_near_waypoint)))
                    (speed (player game_near_waypoint)) = true).
  { apply Rltb_true. unfold distance. cbn.
    apply norm2_lt_iff; lra. }
  rewrite Hd. cbn. repeat split; try reflexivity. lra.
Qed.

(** C3, amended: on a tick with an active waypoint, [Player.update]
    moves the player by exactly its speed, along the unit vector toward
    the waypoint when the waypoint is not the player's own position;
    it deactivates the waypoint exactly when the player, after the
    move, is less than one speed away from it (the waypoint itself
    stays where it is); and it triggers the win exactly when the
    position the player had at the start of the tick is inside the
    home's box. *)
Theorem C3_player_update (g : Game) :
  is_active (waypoint g) = true ->
  0 <= speed (player g) ->
  let x := player_x (player g) in
  let y := player_y (player g) in
  let w := waypoint g in
  let g' := Player_update g in
  let x' := player_x (player g') in
  let y' := player_y (player g') in
  norm2 (x' - x) (y' - y) = speed (player g) /\
  (wp_x w <> x \/ wp_y w <> y ->
   x' = x + speed (player g) * ((wp_x w - x) / norm2 (wp_x w - x) (wp_y w - y)) /\
   y' = y + speed (player g) * ((wp_y w - y) / norm2 (wp_x w - x) (wp_y w - y))) /\
  speed (player g') = speed (player g) /\
  (is_active (waypoint g') = false <->
   norm2 (wp_x w - x') (wp_y w - y') < speed (player g)) /\
  wp_x (waypoint g') = wp_x w /\ wp_y (waypoint g') = wp_y w /\
  status g' = (if contains (home g) x y then YouWin else status g).
Proof.
  intros Hact Hsp. cbv zeta.
  rewrite Player_update_player, Player_update_waypoint by assumption.
  rewrite Player_update_status.
  unfold stepped, forward, setheading, towards, distance, player_x, player_y.
  cbn [xcor ycor heading turtle speed].
  set (x := xcor (turtle (player g))). set (y := ycor (turtle (player g))).
  set (v := speed (player g)) in *.
  set (a := atan2 (wp_y (waypoint g) - y) (wp_x (waypoint g) - x)).
  repeat split.
  - replace (x + v * cos a - x) with (v * cos a) by ring.
    replace (y + v * sin a - y) with (v * sin a) by ring.
    apply step_length; assumption.
  - unfold a. rewrite cos_atan2; [reflexivity |].
    destruct H; [left | right]; lra.
  - unfold a. rewrite sin_atan2; [reflexivity |].
    destruct H; [left | right]; lra.
  - intros Hoff. destruct (Rltb _ v) eqn:E.
    + apply Rltb_true in E. exact E.
    + rewrite Hact in Hoff. discriminate.
  - intros Hlt. apply Rltb_true in Hlt. rewrite Hlt. reflexivity.
  - destruct (Rltb _ v); reflexivity.
  - destruct (Rltb _ v); reflexivity.
Qed.

Lemma C3_player_update_witness :
  norm2 (player_x (player (Player_update game_near_waypoint)) - 0)
        (player_y (player (Player_update game_near_waypoint)) - 0) = 5.
Proof.
  assert (Hsp : 0 <= speed (player game_near_waypoint)) by (cbn; lra).
  exact (proj1 (C3_player_update game_near_waypoint eq_refl Hsp)).
Defined.

(** C9: with the waypoint inactive and the player outside the home's
    box, [Player.update] changes nothing: the player's coordinates, the
    waypoint and the rest of the game are as before. *)
Theorem C9_inactive_waypoint_frame (g : Game) :
  is_active (waypoint g) = false ->
  contains (home g) (player_x (player g)) (player_y (player g)) = false ->
  Player_update g = g /\
  player_x (player (Player_update g)) = player_x (player g) /\
  player_y (player (Player_update g)) = player_y (player g) /\
  waypoint (Player_update g) = waypoint g.
Proof.
  intros Hin Hout.
  assert (E : Player_update g = g).
  { rewrite Player_update_inactive by assumption.
    unfold at_home. rewrite Hout. reflexivity. }
  rewrite E. auto.
Qed.

Lemma game_idle_away_from_home :
  contains (home game_idle) (player_x (player game_idle)) (player_y (player game_idle))
  = false.
Proof.
  apply contains_false. cbn. lra.
Qed.

Lemma C9_inactive_waypoint_frame_witness : Player_update game_idle = game_idle.
Proof.
  exact (proj1 (C9_inactive_waypoint_frame game_idle eq_refl game_idle_away_from_home)).
Defined.

(** ** Running computations that read draws *)

Lemma bind_Some {A B : Type} (m : Rand A) (k : A -> Rand B) (s : list Z) (r : B * list Z) :
  bind m k s = Some r -> exists a s1, m s = Some (a, s1) /\ k a s1 = Some r.
Proof.
  unfold bind. destruct (m s) as [[a s1] |]; [| discriminate].
  intros H. exists a, s1. auto.
Qed.

Lemma ret_Some {A : Type} (a : A) (s : list Z) (r : A * list Z) :
  ret a s = Some r -> r = (a, s).
Proof. unfold ret. congruence. Qed.

Lemma randint_Some (a b : Z) (s : list Z) (v : Z) (s1 : list Z) :
  randint a b s = Some (v, s1) ->
  exists z, s = z :: s1 /\ (a <= v <= b)%Z.
Proof.
  unfold randint. destruct s as [| z s']; [discriminate |].
  destruct (Z.ltb_spec b a) as [Hlt | Hge]; [discriminate |].
  intros Hs. injection Hs as <- <-. exists z. split; [reflexivity |].
  pose proof (Z.mod_pos_bound z (b - a + 1)). lia.
Qed.

(** Splits a run of [x <- m ;; k] that gave a result into the run of
    [m] and the run of [k]. *)
Ltac run_inv H :=
  repeat match type of H with
  | bind _ _ _ = Some _ =>
      let a := fresh "a" in let s := fresh "s" in
      let H1 := fresh "Hrun" in
      apply bind_Some in H; destruct H as (a & s & H1 & H)
  | ret _ _ = Some _ => apply ret_Some in H
  end.

(** ** Fake homes (C7, C10) *)

Lemma same_but_elements_refl (g : Game) : same_but_elements g g.
Proof. unfold same_but_elements. tauto. Qed.

Lemma same_but_elements_trans (g1 g2 g3 : Game) :
  same_but_elements g1 g2 -> same_but_elements g2 g3 -> same_but_elements g1 g3.
Proof.
  unfold same_but_elements. intros H12 H23.
  decompose [and] H12. decompose [and] H23. repeat split; congruence.
Qed.

Lemma add_element_same (g : Game) (e : Element) :
  same_but_elements g (add_element g e).
Proof. unfold same_but_elements. cbn. tauto. Qed.

Lemma fake_homes_loop_spec (n : nat) (width height : Z) :
  forall (g : Game) (s : list Z) (g' : Game) (s' : list Z),
    fake_homes_loop n width height g s = Some (g', s') ->
    same_but_elements g g' /\
    exists fakes : list Home,
      length fakes = n /\
      Forall (is_fake_home width height) fakes /\
      elements g' = elements g ++ map ElHome fakes.
Proof.
  induction n as [| n IH]; intros g s g' s' Hrun; cbn in Hrun.
  - apply ret_Some in Hrun. injection Hrun as <- <-.
    split; [apply same_but_elements_refl |].
    exists []. cbn. rewrite app_nil_r. auto.
  - run_inv Hrun.
    apply randint_Some in Hrun0, Hrun1.
    destruct Hrun0 as (z0 & _ & Hx). destruct Hrun1 as (z1 & _ & Hy).
    apply IH in Hrun. destruct Hrun as (Hsame & fakes & Hlen & Hall & Hel).
    split.
    + eapply same_but_elements_trans; [apply add_element_same | exact Hsame].
    + exists (mkHome (IZR a) (IZR a0) 20 :: fakes). repeat split.
      * cbn. congruence.
      * constructor; [| assumption].
        split; [reflexivity |]. exists a, a0. cbn. auto.
      * rewrite Hel. cbn. rewrite <- app_assoc. reflexivity.
Qed.

Lemma generate_fake_homes_spec (g : Game) (e : BossEnemy) (s : list Z) (g' : Game) (s' : list Z) :
  generate_fake_homes g e s = Some (g', s') ->
  same_but_elements g g' /\
  exists fakes : list Home,
    length fakes = num_fake_homes e /\
    Forall (is_fake_home (canvas_width g) (canvas_height g)) fakes /\
    elements g' = elements g ++ map ElHome fakes.
Proof. apply fake_homes_loop_spec. Qed.

(** The win check reads the home, the player and nothing else. *)
Lemma at_home_same (g g' : Game) : same_but_elements g g' -> at_home g' = at_home g.
Proof.
  unfold same_but_elements, at_home. intros H. decompose [and] H. congruence.
Qed.

(** ** [EnemyGenerator.create_enemy] (C1, C7, C8) *)

Section CreateEnemy.

Lemma randint_from_0 (b v : Z) (s : list Z) :
  (0 <= v <= b)%Z -> randint 0 b (v :: s) = Some (v, s).
Proof.
  intros Hv. unfold randint.
  destruct (Z.ltb_spec b 0); [lia |].
  rewrite Z.mod_small by lia. reflexivity.
Qed.

(** Every point the loop returns is on the canvas and far enough. *)
Lemma spawn_rounds_spec (n : nat) (width height : Z) (px py : R) (md : Z) :
  forall (s : list Z) (x y : Z) (s' : list Z),
    spawn_rounds n width height px py md s = Some ((x, y), s') ->
    (0 <= x <= width)%Z /\ (0 <= y <= height)%Z /\
    IZR md <= norm2 (IZR x - px) (IZR y - py).
Proof.
  induction n as [| n IH]; intros s x y s' Hrun; cbn in Hrun; [discriminate |].
  run_inv Hrun.
  destruct (Rleb (IZR md) (norm2 (IZR a - px) (IZR a0 - py))) eqn:E.
  - apply ret_Some in Hrun. injection Hrun as <- <- <-.
    apply randint_Some in Hrun0, Hrun1.
    destruct Hrun0 as (? & _ & ?). destruct Hrun1 as (? & _ & ?).
    apply Rleb_true in E. auto.
  - eapply IH; eassumption.
Qed.

Lemma spawn_loop_spec (width height : Z) (px py : R) (md : Z)
      (s : list Z) (x y : Z) (s' : list Z) :
  spawn_loop width height px py md s = Some ((x, y), s') ->
  (0 <= x <= width)%Z /\ (0 <= y <= height)%Z /\
  IZR md <= norm2 (IZR x - px) (IZR y - py).
Proof. unfold spawn_loop. apply spawn_rounds_spec. Qed.

(** The loop stops at once when the first two draws give a point that
    is far enough. *)
Lemma spawn_loop_hit (width height : Z) (px py : R) (md : Z) (x y : Z) (s : list Z) :
  (0 <= x <= width)%Z -> (0 <= y <= height)%Z ->
  IZR md <= norm2 (IZR x - px) (IZR y - py) ->
  spawn_loop width height px py md (x :: y :: s) = Some ((x, y), s).
Proof.
  intros Hx Hy Hfar. unfold spawn_loop. cbn [length spawn_rounds].
  unfold bind. rewrite randint_from_0 by assumption.
  rewrite randint_from_0 by assumption.
  apply Rleb_true in Hfar. rewrite Hfar. reflexivity.
Qed.

(** On a canvas without a point far enough from the player the loop
    never stops, whatever the draws. *)
Lemma spawn_loop_never (width height : Z) (px py : R) (md : Z) :
  (forall x y : Z, (0 <= x <= width)%Z -> (0 <= y <= height)%Z ->
                   norm2 (IZR x - px) (IZR y - py) < IZR md) ->
  forall s, spawn_loop width height px py md s = None.
Proof.
  intros Hnear s.
  destruct (spawn_loop width height px py md s) as [[[x y] s'] |] eqn:E;
    [| reflexivity].
  apply spawn_loop_spec in E. destruct E as (Hx & Hy & Hfar).
  specialize (Hnear x y Hx Hy). lra.
Qed.

Lemma Enemy_set_pos_x (e : Enemy) (x y : R) : Enemy_x (Enemy_set_pos e x y) = x.
Proof. destruct e; reflexivity. Qed.

Lemma Enemy_set_pos_y (e : Enemy) (x y : R) : Enemy_y (Enemy_set_pos e x y) = y.
Proof. destruct e; reflexivity. Qed.

(** The constructed [FencingEnemy]: the [update] that ends the
    constructor has moved it right by its speed, five past the corner
    it was put on, and turned it to "down". *)
Lemma FencingEnemy_init_eq (g : Game) (size : R) :
  FencingEnemy_init g size =
    let e := mkFencing (home_x (home g) + 50 + 5) (home_y (home g) + 50) size 5
                       ["right"; "down"; "left"; "up"]%string 1 50 in
    Some (e, lose_if_hit g (fe_x e) (fe_y e) size).
Proof.
  unfold FencingEnemy_init, FencingEnemy_update, FencingEnemy_move.
  cbn [directions current_direction_index nth_error String.eqb Ascii.eqb Bool.eqb
       fe_set_x fe_x fe_y fe_speed fe_size distance_from_home].
  replace (Rleb (home_x (home g) + 50) (home_x (home g) + 50 + 5)) with true
    by (symmetry; apply Rleb_true; lra).
  reflexivity.
Qed.

Lemma same_setting_refl (g : Game) : same_setting g g.
Proof. unfold same_setting. tauto. Qed.

Lemma same_but_elements_setting (g g' : Game) :
  same_but_elements g g' -> same_setting g g'.
Proof. unfold same_but_elements, same_setting. tauto. Qed.

Lemma lose_if_hit_frame (g : Game) (ex ey size : R) :
  same_setting g (lose_if_hit g ex ey size) /\
  elements (lose_if_hit g ex ey size) = elements g.
Proof.
  unfold lose_if_hit, same_setting.
  destruct (hits_player _ _ _ _ _); cbn; tauto.
Qed.

(** Building the enemy leaves the setting of the game as it was. *)
Lemma build_enemy_frame (level : Z) (g : Game) (s : list Z) (e : Enemy) (g1 : Game) (s1 : list Z) :
  build_enemy level g s = Some ((e, g1), s1) -> same_setting g g1.
Proof.
  unfold build_enemy. intros Hrun.
  destruct (level mod 4 =? 1)%Z.
  { run_inv Hrun. injection Hrun as _ <- _. apply same_setting_refl. }
  destruct (level mod 4 =? 2)%Z.
  { run_inv Hrun. injection Hrun as _ <- _. apply same_setting_refl. }
  destruct (level mod 4 =? 3)%Z.
  { run_inv Hrun. destruct a as [f g0]. run_inv Hrun. injection Hrun as _ <- _.
    rewrite FencingEnemy_init_eq in Hrun0. cbv zeta in Hrun0.
    unfold lift in Hrun0. injection Hrun0 as _ <- _.
    apply lose_if_hit_frame. }
  cbn [BossEnemy_init] in Hrun. run_inv Hrun. injection Hrun as _ <- _.
  apply generate_fake_homes_spec in Hrun2.
  apply same_but_elements_setting, Hrun2.
Qed.

(** The point [pick_spawn] returns. *)
Lemma pick_spawn_spec (level : Z) (g : Game) (px py : R) (s : list Z) (x y : R) (s' : list Z) :
  pick_spawn level g px py s = Some ((x, y), s') ->
  if (level mod 4 =? 3)%Z
  then x = home_x (home g) + 50 /\ y = home_y (home g) + 50
  else IZR (min_distance level) <= norm2 (x - px) (y - py) /\
       exists rx ry : Z, x = IZR rx /\ y = IZR ry /\
                         (0 <= rx <= canvas_width g)%Z /\ (0 <= ry <= canvas_height g)%Z.
Proof.
  unfold pick_spawn. intros Hrun.
  destruct (level mod 4 =? 3)%Z.
  - apply ret_Some in Hrun. injection Hrun as -> -> _. auto.
  - run_inv Hrun. destruct a as [rx ry]. run_inv Hrun.
    injection Hrun as -> -> _.
    apply spawn_loop_spec in Hrun0. destruct Hrun0 as (Hx & Hy & Hfar).
    split; [assumption |]. exists rx, ry. auto.
Qed.

(** A run of [create_enemy], step by step. *)
Lemma create_enemy_inv (level : Z) (g : Game) (s : list Z) (g' : Game) (s' : list Z) :
  create_enemy level g s = Some (g', s') ->
  exists (e : Enemy) (g1 : Game) (s1 : list Z) (x y : R),
    build_enemy level g s = Some ((e, g1), s1) /\
    pick_spawn level g1 (player_x (player g)) (player_y (player g)) s1
      = Some ((x, y), s') /\
    g' = after (add_enemy g1 (Enemy_set_pos e x y)) (spawn_delay level).
Proof.
  unfold create_enemy. intros Hrun.
  run_inv Hrun. destruct a as [e g1]. run_inv Hrun.
  destruct a as [x y]. run_inv Hrun. injection Hrun as -> ->.
  exists e, g1, s0, x, y. auto.
Qed.

(** At a level with [level % 4 == 3] the run reads no draw: the fencing
    enemy is put on the corner (home + 50, home + 50), facing "down". *)
Lemma create_enemy_fencing_run (level : Z) (g : Game) (s : list Z) :
  (level mod 4 = 3)%Z ->
  create_enemy level g s =
    let hm := home g in
    let g1 := lose_if_hit g (home_x hm + 50 + 5) (home_y hm + 50) 20 in
    let e := mkFencing (home_x hm + 50) (home_y hm + 50) 20 5
                       ["right"; "down"; "left"; "up"]%string 1 50 in
    Some (after (add_enemy g1 (EFencing e)) (spawn_delay level), s).
Proof.
  intros Hmod. unfold create_enemy, build_enemy, pick_spawn. rewrite Hmod.
  cbn [Z.eqb Pos.eqb]. rewrite FencingEnemy_init_eq. cbv zeta.
  unfold bind, lift, ret. cbn [fe_x fe_y Enemy_set_pos fe_set_x fe_set_y fe_size
    fe_speed directions current_direction_index distance_from_home].
  destruct (lose_if_hit_frame g (home_x (home g) + 50 + 5) (home_y (home g) + 50) 20)
    as [Hset _].
  unfold same_setting in Hset. decompose [and] Hset.
  replace (home (lose_if_hit g (home_x (home g) + 50 + 5) (home_y (home g) + 50) 20))
    with (home g) by congruence.
  reflexivity.
Qed.

(** At a level with [level % 4 == 2] the first two draws are the spawn
    point when they are far enough from the player. *)
Lemma create_enemy_chasing_run (level : Z) (g : Game) (x y : Z) (s : list Z) :
  (level mod 4 = 2)%Z ->
  (0 <= x <= canvas_width g)%Z -> (0 <= y <= canvas_height g)%Z ->
  IZR (min_distance level)
    <= norm2 (IZR x - player_x (player g)) (IZR y - player_y (player g)) ->
  create_enemy level g (x :: y :: s) =
    Some (after (add_enemy g (EChasing (mkChasing (IZR x) (IZR y) 20 3)))
                (spawn_delay level), s).
Proof.
  intros Hmod Hx Hy Hfar. unfold create_enemy, build_enemy, pick_spawn.
  rewrite Hmod. cbn [Z.eqb Pos.eqb]. unfold bind at 1 2. unfold ret at 1.
  unfold bind at 1. rewrite spawn_loop_hit by assumption.
  reflexivity.
Qed.

Lemma fake_homes_loop_returns (n : nat) (width height : Z) :
  (0 <= width)%Z -> (0 <= height)%Z ->
  forall (g : Game) (tail : list Z),
  exists (pre : list Z) (g' : Game),
    fake_homes_loop n width height g (pre ++ tail) = Some (g', tail).
Proof.
  intros Hw Hh. induction n as [| n IH]; intros g tail.
  - exists [], g. reflexivity.
  - destruct (IH (add_element g (ElHome (mkHome 0 0 20))) tail) as (pre & g' & Hrun).
    exists (0 :: 0 :: pre)%Z, g'. cbn [fake_homes_loop app]. unfold bind.
    rewrite randint_from_0 by lia. rewrite randint_from_0 by lia.
    exact Hrun.
Qed.

(** With the right draws the enemy of every level gets built. *)
Lemma build_enemy_returns (level : Z) (g : Game) (tail : list Z) :
  (0 <= canvas_width g)%Z -> (0 <= canvas_height g)%Z ->
  exists (pre : list Z) (e : Enemy) (g1 : Game),
    build_enemy level g (pre ++ tail) = Some ((e, g1), tail).
Proof.
  intros Hw Hh. unfold build_enemy.
  destruct (level mod 4 =? 1)%Z.
  { exists [0; 0]%Z. eexists. eexists. reflexivity. }
  destruct (level mod 4 =? 2)%Z.
  { exists []. eexists. eexists. reflexivity. }
  destruct (level mod 4 =? 3)%Z.
  { exists []. rewrite FencingEnemy_init_eq. eexists. eexists. reflexivity. }
  cbn [BossEnemy_init].
  destruct (fake_homes_loop_returns 5 _ _ Hw Hh g tail) as (pre & g' & Hrun).
  exists (0 :: 0 :: pre)%Z. eexists. exists g'.
  cbn [app]. unfold bind at 1. rewrite randint_from_0 by lia.
  unfold bind at 1. rewrite randint_from_0 by lia.
  unfold bind at 1. unfold generate_fake_homes. cbn [num_fake_homes bs_size].
  rewrite Hrun. reflexivity.
Qed.

(** [create_enemy] can return: always at a level with [level % 4 == 3],
    and at the other levels when the canvas has a point that is far
    enough from the player. *)
Lemma create_enemy_returns (level : Z) (g : Game) :
  (0 <= canvas_width g)%Z -> (0 <= canvas_height g)%Z ->
  ((level mod 4 = 3)%Z \/
   exists x y : Z, (0 <= x <= canvas_width g)%Z /\ (0 <= y <= canvas_height g)%Z /\
     IZR (min_distance level)
       <= norm2 (IZR x - player_x (player g)) (IZR y - player_y (player g))) ->
  exists (s : list Z) (g' : Game) (s' : list Z), create_enemy level g s = Some (g', s').
Proof.
  intros Hw Hh [Hmod | (x & y & Hx & Hy & Hfar)].
  - exists []. rewrite create_enemy_fencing_run by assumption. cbv zeta.
    eexists. eexists. reflexivity.
  - destruct (build_enemy_returns level g [x; y] Hw Hh) as (pre & e & g1 & Hb).
    pose proof (build_enemy_frame _ _ _ _ _ _ Hb) as Hset.
    unfold same_setting in Hset. decompose [and] Hset.
    exists (pre ++ [x; y]). unfold create_enemy. unfold bind at 1. rewrite Hb.
    unfold bind at 1. unfold pick_spawn.
    destruct (level mod 4 =? 3)%Z.
    + eexists. eexists. reflexivity.
    + unfold bind at 1.
      rewrite spawn_loop_hit by congruence.
      eexists. eexists. reflexivity.
Qed.

End CreateEnemy.

Lemma min_distance_eq (level : Z) :
  min_distance level = Z.max (250 - 10 * level) 100.
Proof. unfold min_distance. f_equal. lia. Qed.

Lemma create_enemy_fence_run :
  create_enemy 3 game_fence [] =
    Some (after (add_enemy game_fence
                   (EFencing (mkFencing 750 300 20 5
                                ["right"; "down"; "left"; "up"]%string 1 50)))
                970, []).
Proof.
  rewrite create_enemy_fencing_run by reflexivity. cbv zeta.
  assert (Hmiss : lose_if_hit game_fence (home_x (home game_fence) + 50 + 5)
                    (home_y (home game_fence) + 50) 20 = game_fence).
  { unfold lose_if_hit.
    replace (hits_player _ _ _ _ _) with false; [reflexivity |].
    symmetry. apply not_true_is_false. rewrite hits_player_open_box. cbn. lra. }
  rewrite Hmiss. cbn [home game_fence home_x home_y].
  replace (700 + 50) with 750 by lra. replace (250 + 50) with 300 by lra.
  reflexivity.
Qed.

(** C1, as stated, fails at the levels with [level % 4 == 3]: in a
    level 3 game with the home at (700, 250) and the player at
    (650, 350), [create_enemy] puts the new enemy at (750, 300), whose
    distance from the player (about 112) is below
    [min_distance = max(250 - 30, 100) = 220]. *)
Lemma C1_fencing_spawned_near_player :
  exists (g' : Game) (e : Enemy),
    create_enemy 3 game_fence [] = Some (g', []) /\
    enemies g' = [e] /\
    Z.max (250 - 10 * 3) 100 = 220%Z /\
    norm2 (Enemy_x e - player_x (player game_fence))
          (Enemy_y e - player_y (player game_fence)) < 220.
Proof.
  eexists. eexists. split; [apply create_enemy_fence_run |].
  split; [reflexivity |]. split; [reflexivity |].
  cbn. apply norm2_lt_iff; lra.
Qed.

(** C1, amended: at every level with [level % 4 != 3] and for every
    player position, the spawn point [create_enemy] assigns to the new
    enemy is at Euclidean distance at least
    [min_distance = max(250 - 10*level, 100)] from the player; at the
    levels with [level % 4 == 3] it is the point (home.x + 50,
    home.y + 50), wherever the player is.  [create_enemy] does return
    for suitable draws: always when [level % 4 == 3], and otherwise when
    the canvas has an integer point at least [min_distance] from the
    player. *)
Theorem C1_spawn_point (level : Z) (g : Game) :
  min_distance level = Z.max (250 - 10 * level) 100 /\
  (forall (s : list Z) (g' : Game) (s' : list Z),
      create_enemy level g s = Some (g', s') ->
      exists e : Enemy,
        enemies g' = enemies g ++ [e] /\
        if (level mod 4 =? 3)%Z
        then Enemy_x e = home_x (home g) + 50 /\ Enemy_y e = home_y (home g) + 50
        else IZR (min_distance level)
               <= norm2 (Enemy_x e - player_x (player g))
                        (Enemy_y e - player_y (player g))) /\
  ((0 <= canvas_width g)%Z -> (0 <= canvas_height g)%Z ->
   ((level mod 4 = 3)%Z \/
    exists x y : Z, (0 <= x <= canvas_width g)%Z /\ (0 <= y <= canvas_height g)%Z /\
      IZR (min_distance level)
        <= norm2 (IZR x - player_x (player g)) (IZR y - player_y (player g))) ->
   exists (s : list Z) (g' : Game) (s' : list Z),
     create_enemy level g s = Some (g', s')).
Proof.
  split; [apply min_distance_eq |]. split; [| apply create_enemy_returns].
  intros s g' s' Hrun.
  apply create_enemy_inv in Hrun.
  destruct Hrun as (e & g1 & s1 & x & y & Hb & Hp & ->).
  apply build_enemy_frame in Hb. unfold same_setting in Hb. decompose [and] Hb.
  apply pick_spawn_spec in Hp.
  exists (Enemy_set_pos e x y). split.
  - cbn. congruence.
  - rewrite Enemy_set_pos_x, Enemy_set_pos_y.
    destruct (level mod 4 =? 3)%Z.
    + replace (home g) with (home g1) by assumption. exact Hp.
    + apply Hp.
Qed.

Lemma create_enemy_chase_run :
  create_enemy 2 game_chase [300; 400]%Z =
    Some (after (add_enemy game_chase (EChasing (mkChasing 300 400 20 3))) 980, []).
Proof.
  apply (create_enemy_chasing_run 2 game_chase 300 400 []);
    [reflexivity | cbn; lia | cbn; lia |].
  cbn. apply norm2_le_iff; lra.
Qed.

Lemma C1_spawn_point_witness :
  (exists e : Enemy,
      [EChasing (mkChasing 300 400 20 3)] = [e] /\
      230 <= norm2 (Enemy_x e - 50) (Enemy_y e - 250)) /\
  (exists (s : list Z) (g' : Game) (s' : list Z),
      create_enemy 2 game_chase s = Some (g', s')).
Proof.
  split.
  - exact (proj1 (proj2 (C1_spawn_point 2 game_chase)) _ _ _ create_enemy_chase_run).
  - apply (proj2 (proj2 (C1_spawn_point 2 game_chase))); [cbn; lia | cbn; lia |].
    right. exists 300%Z, 400%Z. cbn. repeat split; try lia.
    apply norm2_le_iff; lra.
Defined.

(** [init_game] at level 2: the first enemy is spawned while the player
    is still at the origin, then the player is put on (50, 250). *)
Lemma init_game_level2 :
  init_game 800 500 2 800 500 [300; 400]%Z = Some (game_started, []).
Proof.
  unfold init_game. unfold bind at 1.
  rewrite (create_enemy_chasing_run 2 _ 300 400 []);
    [reflexivity | reflexivity | cbn; lia | cbn; lia |].
  cbn. apply norm2_le_iff; lra.
Qed.

(** ** The rescheduling delay (C8) *)

Lemma spawn_delay_eq (level : Z) : spawn_delay level = Z.max 200 (1000 - 10 * level).
Proof. unfold spawn_delay. f_equal. lia. Qed.

Lemma spawn_delay_floor (level : Z) : (200 <= spawn_delay level)%Z.
Proof. unfold spawn_delay. lia. Qed.

Lemma spawn_delay_antitone (l1 l2 : Z) :
  (l1 <= l2)%Z -> (spawn_delay l2 <= spawn_delay l1)%Z.
Proof. unfold spawn_delay. lia. Qed.

Lemma create_enemy_scheduled (level : Z) (g : Game) (s : list Z) (g' : Game) (s' : list Z) :
  create_enemy level g s = Some (g', s') ->
  scheduled g' = scheduled g ++ [spawn_delay level].
Proof.
  intros Hrun. apply create_enemy_inv in Hrun.
  destruct Hrun as (e & g1 & s1 & x & y & Hb & _ & ->).
  apply build_enemy_frame in Hb. unfold same_setting in Hb. decompose [and] Hb.
  cbn. congruence.
Qed.

(** C8: the delay [create_enemy] hands to the timer when it reschedules
    itself is [max(200, 1000 - 10*level)] milliseconds; it does not
    grow when the level grows and it is never below 200. *)
Theorem C8_spawn_delay (l1 l2 : Z) (g : Game) (s : list Z) (g' : Game) (s' : list Z) :
  (l1 <= l2)%Z ->
  create_enemy l1 g s = Some (g', s') ->
  scheduled g' = scheduled g ++ [Z.max 200 (1000 - 10 * l1)] /\
  spawn_delay l1 = Z.max 200 (1000 - 10 * l1) /\
  (spawn_delay l2 <= spawn_delay l1)%Z /\
  (200 <= spawn_delay l1)%Z /\ (200 <= spawn_delay l2)%Z.
Proof.
  intros Hle Hrun. rewrite <- spawn_delay_eq.
  split; [eapply create_enemy_scheduled; eassumption |].
  split; [reflexivity |].
  split; [apply spawn_delay_antitone; assumption |].
  split; apply spawn_delay_floor.
Qed.

Lemma C8_spawn_delay_witness :
  [980%Z] = [] ++ [Z.max 200 (1000 - 10 * 2)] /\
  spawn_delay 2 = Z.max 200 (1000 - 10 * 2) /\
  (spawn_delay 90 <= spawn_delay 2)%Z /\
  (200 <= spawn_delay 2)%Z /\ (200 <= spawn_delay 90)%Z.
Proof.
  assert (Hle : (2 <= 90)%Z) by lia.
  exact (C8_spawn_delay 2 90 game_chase _ _ _ Hle create_enemy_chase_run).
Defined.

(** ** The boss (C7) *)

Lemma build_enemy_boss (level : Z) (g : Game) (s : list Z) (e : Enemy) (g1 : Game) (s1 : list Z) :
  (level mod 4 = 0)%Z ->
  build_enemy level g s = Some ((e, g1), s1) ->
  exists (b : BossEnemy) (fakes : list Home),
    e = EBoss b /\ bs_size b = 20 /\ num_fake_homes b = 5%nat /\
    bs_speed b = 3 /\ growth_rate b = 7 / 10 /\
    same_but_elements g g1 /\
    length fakes = 5%nat /\
    Forall (is_fake_home (canvas_width g) (canvas_height g)) fakes /\
    elements g1 = elements g ++ map ElHome fakes.
Proof.
  intros Hmod. unfold build_enemy. rewrite Hmod. cbn [Z.eqb BossEnemy_init].
  intros Hrun. run_inv Hrun. injection Hrun as -> -> _.
  apply generate_fake_homes_spec in Hrun2.
  destruct Hrun2 as (Hsame & fakes & Hlen & Hall & Hel).
  exists (mkBoss (IZR a) (IZR a0) 20 5 3 (7 / 10)), fakes.
  cbn [bs_size num_fake_homes bs_speed growth_rate]. tauto.
Qed.

Lemma create_enemy_boss_run :
  create_enemy 4 game_boss boss_draws = Some (game_boss_spawned, []).
Proof.
  unfold create_enemy, build_enemy, pick_spawn.
  cbv -[IZR Rplus Rmult Ropp Rinv Rminus Rdiv Rleb Rltb norm2 spawn_loop].
  rewrite spawn_loop_hit; [reflexivity | lia | lia |].
  apply norm2_le_iff; lra.
Qed.

(** C7, as stated, fails on "spawned at construction": the constructor
    of [BossEnemy] gives a boss with [num_fake_homes = 5] and leaves
    the elements of the game as they were, without a fake home. *)
Lemma C7_constructor_adds_no_fake_home :
  let '(b, g') := BossEnemy_init game_boss 20 in
  num_fake_homes b = 5%nat /\
  elements g' = elements game_boss /\
  elements g' = [ElWaypoint; ElHome (home game_boss); ElPlayer].
Proof. cbn. auto. Qed.

(** C7, amended: every [BossEnemy.update] step increases the size by
    the growth rate, which is 0.7 from the constructor on, and the
    speed by 0.001.  The constructor adds nothing to the game; the
    decoy fake homes are added by [EnemyGenerator.create_enemy], which
    calls [generate_fake_homes] right after it has constructed the
    boss: when it returns, [num_fake_homes = 5] fake homes of size 20
    on the canvas, and after them the boss, have joined the game. *)
Theorem C7_boss :
  (forall (g : Game) (e : BossEnemy),
      let e' := fst (BossEnemy_update g e) in
      bs_size e' = bs_size e + growth_rate e /\
      bs_speed e' = bs_speed e + 1 / 1000 /\
      growth_rate e' = growth_rate e /\
      num_fake_homes e' = num_fake_homes e /\
      (growth_rate e = 7 / 10 ->
       bs_size e' = bs_size e + 7 / 10 /\ bs_size e < bs_size e' /\
       bs_speed e < bs_speed e')) /\
  (forall (g : Game) (size : R),
      let b := fst (BossEnemy_init g size) in
      growth_rate b = 7 / 10 /\ num_fake_homes b = 5%nat /\
      snd (BossEnemy_init g size) = g) /\
  (forall (level : Z) (g : Game) (s : list Z) (g' : Game) (s' : list Z),
      (level mod 4 = 0)%Z ->
      create_enemy level g s = Some (g', s') ->
      exists (fakes : list Home) (b : BossEnemy),
        length fakes = 5%nat /\
        Forall (is_fake_home (canvas_width g) (canvas_height g)) fakes /\
        elements g' =
          elements g ++ map ElHome fakes ++ [ElEnemy (length (enemies g))] /\
        enemies g' = enemies g ++ [EBoss b] /\
        num_fake_homes b = 5%nat /\ growth_rate b = 7 / 10).
Proof.
  split; [| split].
  - intros g e. cbn. repeat split; try reflexivity; lra.
  - intros g size. cbn. auto.
  - intros level g s g' s' Hmod Hrun.
    apply create_enemy_inv in Hrun.
    destruct Hrun as (e & g1 & s1 & x & y & Hb & _ & ->).
    apply (build_enemy_boss _ _ _ _ _ _ Hmod) in Hb.
    destruct Hb as (b & fakes & -> & Hsz & Hn & Hsp & Hgr & Hsame & Hlen & Hall & Hel).
    unfold same_but_elements in Hsame. decompose [and] Hsame.
    exists fakes,
      (mkBoss x y (bs_size b) (num_fake_homes b) (bs_speed b) (growth_rate b)).
    cbn. repeat split; try assumption.
    + rewrite Hel, <- app_assoc. do 3 f_equal. congruence.
    + f_equal. assumption.
Qed.

Lemma C7_boss_witness :
  (let e' := fst (BossEnemy_update game_boss_spawned (mkBoss 300 400 20 5 3 (7 / 10))) in
   bs_size e' = 20 + 7 / 10 /\ 20 < bs_size e' /\ 3 < bs_speed e') /\
  (exists (fakes : list Home) (b : BossEnemy),
      length fakes = 5%nat /\
      Forall (is_fake_home 800 500) fakes /\
      elements game_boss_spawned =
        elements game_boss ++ map ElHome fakes ++ [ElEnemy 0] /\
      enemies game_boss_spawned = [] ++ [EBoss b] /\
      num_fake_homes b = 5%nat /\ growth_rate b = 7 / 10).
Proof.
  split.
  - apply (proj1 C7_boss game_boss_spawned (mkBoss 300 400 20 5 3 (7 / 10))).
    reflexivity.
  - exact (proj2 (proj2 C7_boss) 4%Z game_boss boss_draws game_boss_spawned []
             eq_refl create_enemy_boss_run).
Defined.

(** ** The win check and the fake homes (C10) *)

Lemma Player_update_status_same (g g' : Game) :
  same_but_elements g g' -> status (Player_update g') = status (Player_update g).
Proof.
  intros Hsame. rewrite !Player_update_status, (at_home_same g g' Hsame).
  unfold same_but_elements in Hsame. decompose [and] Hsame.
  destruct (at_home g); congruence.
Qed.

(** A player in the middle of a fake home does not win. *)
Lemma decoy_does_not_win :
  In (ElHome (mkHome 300 400 20)) (elements game_decoy) /\
  contains (mkHome 300 400 20) (player_x (player game_decoy)) (player_y (player game_decoy))
    = true /\
  status (Player_update game_decoy) = Running.
Proof.
  split; [cbn; tauto |]. split.
  - apply contains_closed_box. cbn. lra.
  - rewrite Player_update_status.
    replace (at_home game_decoy) with false; [reflexivity |].
    symmetry. apply contains_false. cbn. lra.
Qed.

Lemma fake_homes_run :
  generate_fake_homes game_boss (mkBoss 10 20 20 5 3 (7 / 10))
    [100; 200; 300; 400; 500; 100; 600; 300; 700; 260; 300; 400]%Z
  = Some (game_boss_homes, [300; 400]%Z).
Proof. vm_compute. reflexivity. Qed.

(** C10: [Player.update] triggers [game_over_win] if and only if the
    game's home contains the player's position (a running game is won
    after the update exactly in that case); the registry of elements,
    where [generate_fake_homes] puts the decoys and which is all it
    changes, has no part in the outcome. *)
Theorem C10_fake_homes_never_win :
  (forall g : Game,
      status (Player_update g) =
        if contains (home g) (player_x (player g)) (player_y (player g))
        then YouWin else status g) /\
  (forall g : Game,
      status g = Running ->
      (status (Player_update g) = YouWin <->
       contains (home g) (player_x (player g)) (player_y (player g)) = true)) /\
  (forall g g' : Game,
      same_but_elements g g' ->
      status (Player_update g') = status (Player_update g)) /\
  (forall (g : Game) (e : BossEnemy) (s : list Z) (g' : Game) (s' : list Z),
      generate_fake_homes g e s = Some (g', s') ->
      same_but_elements g g' /\
      (exists fakes : list Home,
          length fakes = num_fake_homes e /\
          elements g' = elements g ++ map ElHome fakes) /\
      status (Player_update g') = status (Player_update g)).
Proof.
  split; [exact Player_update_status |].
  split.
  { intros g Hrun. rewrite Player_update_status. unfold at_home.
    destruct (contains _ _ _); rewrite ?Hrun; split; intros; congruence. }
  split; [exact Player_update_status_same |].
  intros g e s g' s' Hrun.
  apply generate_fake_homes_spec in Hrun.
  destruct Hrun as (Hsame & fakes & Hlen & _ & Hel).
  split; [assumption |]. split; [exists fakes; auto |].
  apply Player_update_status_same, Hsame.
Qed.

Lemma C10_fake_homes_never_win_witness :
  same_but_elements game_boss game_boss_homes /\
  (exists fakes : list Home,
      length fakes = 5%nat /\
      elements game_boss_homes = elements game_boss ++ map ElHome fakes) /\
  status (Player_update game_boss_homes) = status (Player_update game_boss) /\
  (status (Player_update game_decoy) = YouWin <->
   contains (home game_decoy) (player_x (player game_decoy)) (player_y (player game_decoy))
     = true).
Proof.
  destruct (proj2 (proj2 (proj2 C10_fake_homes_never_win)) game_boss
              (mkBoss 10 20 20 5 3 (7 / 10)) _ _ _ fake_homes_run) as (H1 & H2 & H3).
  exact (conj H1 (conj H2 (conj H3
           (proj1 (proj2 C10_fake_homes_never_win) game_decoy eq_refl)))).
Defined.

(** ** Chasing (C4) *)

(** C4: one update of a chasing enemy, and of a boss, moves it by the
    displacement (speed*cos(atan2(dy, dx)), speed*sin(atan2(dy, dx)))
    with (dx, dy) the vector from the enemy to the player: a step of
    length exactly [speed] (for a speed that is not negative), along
    the unit vector toward the player when the two are apart. *)
Theorem C4_chase_step :
  (forall (g : Game) (e : ChasingEnemy),
      let e' := fst (ChasingEnemy_update g e) in
      let dx := player_x (player g) - ch_x e in
      let dy := player_y (player g) - ch_y e in
      ch_x e' - ch_x e = ch_speed e * cos (atan2 dy dx) /\
      ch_y e' - ch_y e = ch_speed e * sin (atan2 dy dx) /\
      ch_speed e' = ch_speed e /\
      (0 <= ch_speed e -> norm2 (ch_x e' - ch_x e) (ch_y e' - ch_y e) = ch_speed e) /\
      (dx <> 0 \/ dy <> 0 ->
       ch_x e' - ch_x e = ch_speed e * (dx / norm2 dx dy) /\
       ch_y e' - ch_y e = ch_speed e * (dy / norm2 dx dy))) /\
  (forall (g : Game) (e : BossEnemy),
      let e' := fst (BossEnemy_update g e) in
      let dx := player_x (player g) - bs_x e in
      let dy := player_y (player g) - bs_y e in
      bs_x e' - bs_x e = bs_speed e * cos (atan2 dy dx) /\
      bs_y e' - bs_y e = bs_speed e * sin (atan2 dy dx) /\
      (0 <= bs_speed e -> norm2 (bs_x e' - bs_x e) (bs_y e' - bs_y e) = bs_speed e) /\
      (dx <> 0 \/ dy <> 0 ->
       bs_x e' - bs_x e = bs_speed e * (dx / norm2 dx dy) /\
       bs_y e' - bs_y e = bs_speed e * (dy / norm2 dx dy))).
Proof.
  split; intros g e; cbn.
  - set (a := atan2 _ _).
    assert (Hx : ch_x e + ch_speed e * cos a - ch_x e = ch_speed e * cos a) by ring.
    assert (Hy : ch_y e + ch_speed e * sin a - ch_y e = ch_speed e * sin a) by ring.
    rewrite Hx, Hy. repeat split.
    + apply step_length.
    + unfold a. rewrite cos_atan2 by assumption. reflexivity.
    + unfold a. rewrite sin_atan2 by assumption. reflexivity.
  - set (a := atan2 _ _).
    assert (Hx : bs_x e + bs_speed e * cos a - bs_x e = bs_speed e * cos a) by ring.
    assert (Hy : bs_y e + bs_speed e * sin a - bs_y e = bs_speed e * sin a) by ring.
    rewrite Hx, Hy. repeat split.
    + apply step_length.
    + unfold a. rewrite cos_atan2 by assumption. reflexivity.
    + unfold a. rewrite sin_atan2 by assumption. reflexivity.
Qed.

Lemma C4_chase_step_witness :
  (let e' := fst (ChasingEnemy_update game_chase (mkChasing 300 400 20 3)) in
   norm2 (ch_x e' - 300) (ch_y e' - 400) = 3 /\
   ch_x e' - 300 = 3 * ((50 - 300) / norm2 (50 - 300) (250 - 400))) /\
  (let e' := fst (BossEnemy_update game_boss_spawned (mkBoss 300 400 20 5 3 (7 / 10))) in
   norm2 (bs_x e' - 300) (bs_y e' - 400) = 3 /\
   bs_x e' - 300 = 3 * ((50 - 300) / norm2 (50 - 300) (250 - 400))).
Proof.
  assert (Hsp : 0 <= 3) by lra.
  assert (Hne : 50 - 300 <> 0 \/ 250 - 400 <> 0) by (left; lra).
  split.
  - pose proof (proj1 C4_chase_step game_chase (mkChasing 300 400 20 3)) as H.
    cbv zeta in H. destruct H as (_ & _ & _ & Hlen & Hdir).
    exact (conj (Hlen Hsp) (proj1 (Hdir Hne))).
  - pose proof (proj2 C4_chase_step game_boss_spawned (mkBoss 300 400 20 5 3 (7 / 10)))
      as H.
    cbv zeta in H. destruct H as (_ & _ & Hlen & Hdir).
    exact (conj (Hlen Hsp) (proj1 (Hdir Hne))).
Defined.

(** ** Random walk (C5) *)

Section RandomWalk.

Lemma RandomWalkEnemy_init_inv (size : R) (s : list Z) (e : RandomWalkEnemy) (s' : list Z) :
  RandomWalkEnemy_init size s = Some (e, s') ->
  rw_speed e = 3 /\ rw_size e = size /\ rw_x e = 0 /\ rw_y e = 0.
Proof.
  unfold RandomWalkEnemy_init. intros Hrun. run_inv Hrun.
  injection Hrun as -> _. cbn. auto.
Qed.

Lemma RandomWalkEnemy_init_run (size : R) (s : list Z) :
  RandomWalkEnemy_init size (0 :: 0 :: s)%Z
  = Some (mkRandomWalk 0 0 size moving_right moving_up 3, s).
Proof. reflexivity. Qed.

(** The step on the x axis: the coordinate moves by the speed in the
    direction of the state, and the state is reversed when the new
    coordinate is past the edge ahead; the rest is untouched. *)
Lemma call_state_x_spec (g : Game) (e : RandomWalkEnemy) :
  let e' := call_state_x g e in
  rw_y e' = rw_y e /\ rw_state_y e' = rw_state_y e /\
  rw_speed e' = rw_speed e /\ rw_size e' = rw_size e /\
  match rw_state_x e with
  | moving_right =>
      rw_x e' = rw_x e + rw_speed e /\
      rw_state_x e' =
        if Rltb (IZR (canvas_width g)) (rw_x e') then moving_left else moving_right
  | moving_left =>
      rw_x e' = rw_x e - rw_speed e /\
      rw_state_x e' = if Rltb (rw_x e') 0 then moving_right else moving_left
  end.
Proof.
  destruct e as [x y sz sx sy v].
  unfold call_state_x, RandomWalkEnemy_moving_right, RandomWalkEnemy_moving_left.
  destruct sx; cbn;
    match goal with |- context [Rltb ?a ?b] => destruct (Rltb a b) eqn:E end;
    cbn; rewrite ?E; repeat split; reflexivity.
Qed.

Lemma call_state_y_spec (g : Game) (e : RandomWalkEnemy) :
  let e' := call_state_y g e in
  rw_x e' = rw_x e /\ rw_state_x e' = rw_state_x e /\
  rw_speed e' = rw_speed e /\ rw_size e' = rw_size e /\
  match rw_state_y e with
  | moving_up =>
      rw_y e' = rw_y e + rw_speed e /\
      rw_state_y e' =
        if Rltb (IZR (canvas_height g)) (rw_y e') then moving_down else moving_up
  | moving_down =>
      rw_y e' = rw_y e - rw_speed e /\
      rw_state_y e' = if Rltb (rw_y e') 0 then moving_up else moving_down
  end.
Proof.
  destruct e as [x y sz sx sy v].
  unfold call_state_y, RandomWalkEnemy_moving_up, RandomWalkEnemy_moving_down.
  destruct sy; cbn;
    match goal with |- context [Rltb ?a ?b] => destruct (Rltb a b) eqn:E end;
    cbn; rewrite ?E; repeat split; reflexivity.
Qed.

(** One update, axis by axis. *)
Lemma RandomWalkEnemy_update_x (g : Game) (e : RandomWalkEnemy) :
  let e' := fst (RandomWalkEnemy_update g e) in
  match rw_state_x e with
  | moving_right =>
      rw_x e' = rw_x e + rw_speed e /\
      rw_state_x e' =
        if Rltb (IZR (canvas_width g)) (rw_x e') then moving_left else moving_right
  | moving_left =>
      rw_x e' = rw_x e - rw_speed e /\
      rw_state_x e' = if Rltb (rw_x e') 0 then moving_right else moving_left
  end.
Proof.
  cbn.
  destruct (call_state_y_spec g (call_state_x g e)) as (Hx & Hsx & _).
  destruct (call_state_x_spec g e) as (_ & _ & _ & _ & Hstep).
  cbv zeta in *. rewrite Hx, Hsx. exact Hstep.
Qed.

Lemma RandomWalkEnemy_update_y (g : Game) (e : RandomWalkEnemy) :
  let e' := fst (RandomWalkEnemy_update g e) in
  match rw_state_y e with
  | moving_up =>
      rw_y e' = rw_y e + rw_speed e /\
      rw_state_y e' =
        if Rltb (IZR (canvas_height g)) (rw_y e') then moving_down else moving_up
  | moving_down =>
      rw_y e' = rw_y e - rw_speed e /\
      rw_state_y e' = if Rltb (rw_y e') 0 then moving_up else moving_down
  end.
Proof.
  cbn.
  destruct (call_state_y_spec g (call_state_x g e)) as (_ & _ & _ & _ & Hstep).
  destruct (call_state_x_spec g e) as (Hy & Hsy & Hv & _).
  cbv zeta in *. rewrite Hy, Hsy, Hv in Hstep. exact Hstep.
Qed.

Lemma RandomWalkEnemy_update_speed (g : Game) (e : RandomWalkEnemy) :
  rw_speed (fst (RandomWalkEnemy_update g e)) = rw_speed e.
Proof.
  cbn.
  destruct (call_state_y_spec g (call_state_x g e)) as (_ & _ & Hv & _).
  destruct (call_state_x_spec g e) as (_ & _ & Hv' & _).
  cbv zeta in *. congruence.
Qed.

Lemma rw_inv_update (g : Game) (e : RandomWalkEnemy) :
  (0 <= canvas_width g)%Z -> (0 <= canvas_height g)%Z ->
  rw_inv (canvas_width g) (canvas_height g) e ->
  rw_inv (canvas_width g) (canvas_height g) (fst (RandomWalkEnemy_update g e)).
Proof.
  intros Hw Hh (Hv & Hx & Hy).
  apply IZR_le in Hw, Hh.
  pose proof (RandomWalkEnemy_update_x g e) as Ux.
  pose proof (RandomWalkEnemy_update_y g e) as Uy.
  pose proof (RandomWalkEnemy_update_speed g e) as Uv.
  cbv zeta in Ux, Uy. set (e' := fst (RandomWalkEnemy_update g e)) in *.
  unfold rw_inv. split; [congruence |]. split.
  - destruct (rw_state_x e); destruct Ux as [Ex Es]; rewrite Es;
      match goal with |- context [Rltb ?a ?b] => destruct (Rltb a b) eqn:E end;
      first [apply Rltb_true in E | apply Rltb_false in E]; lra.
  - destruct (rw_state_y e); destruct Uy as [Ey Es]; rewrite Es;
      match goal with |- context [Rltb ?a ?b] => destruct (Rltb a b) eqn:E end;
      first [apply Rltb_true in E | apply Rltb_false in E]; lra.
Qed.

Lemma rw_reachable_inv (width height : Z) (e : RandomWalkEnemy) :
  (0 <= width)%Z -> (0 <= height)%Z ->
  rw_reachable width height e -> rw_inv width height e.
Proof.
  intros Hw Hh Hreach. induction Hreach as [s s' e x y Hinit Hx Hy | g e Hgw Hgh _ IH].
  - apply RandomWalkEnemy_init_inv in Hinit. destruct Hinit as (Hv & _).
    destruct Hx as [Hx0 Hx1], Hy as [Hy0 Hy1].
    apply IZR_le in Hx0, Hx1, Hy0, Hy1, Hw, Hh.
    unfold rw_inv. cbn. split; [assumption |].
    split; [destruct (rw_state_x e) | destruct (rw_state_y e)]; lra.
  - subst width height. apply rw_inv_update; assumption.
Qed.

End RandomWalk.

Lemma walker_on_edge_reachable : rw_reachable 800 500 walker_on_edge.
Proof.
  exact (rw_spawned 800 500 [0; 0]%Z [] _ 800 100
           (RandomWalkEnemy_init_run 20 []) ltac:(lia) ltac:(lia)).
Qed.

(** C5, as stated, fails: a random-walk enemy on the right edge of the
    800 wide canvas, moving right, is at x = 803 after one update, past
    the edge and not on the opposite side; its direction is reversed,
    and the next update brings it back to x = 800. *)
Lemma C5_bounces_without_wrapping :
  let e1 := fst (RandomWalkEnemy_update game_idle walker_on_edge) in
  let e2 := fst (RandomWalkEnemy_update game_idle e1) in
  rw_reachable 800 500 walker_on_edge /\
  rw_x walker_on_edge = IZR (canvas_width game_idle) /\
  rw_x e1 = 803 /\ rw_state_x e1 = moving_left /\
  rw_x e2 = 800.
Proof.
  cbv zeta.
  pose proof (RandomWalkEnemy_update_x game_idle walker_on_edge) as H1.
  cbv zeta in H1. cbn [rw_state_x walker_on_edge rw_x rw_speed] in H1.
  destruct H1 as [Hx1 Hs1].
  assert (Hx1' : rw_x (fst (RandomWalkEnemy_update game_idle walker_on_edge)) = 803)
    by (rewrite Hx1; lra).
  rewrite Hx1' in Hs1. cbn [canvas_width game_idle] in Hs1.
  replace (Rltb 800 803) with true in Hs1 by (symmetry; apply Rltb_true; lra).
  pose proof (RandomWalkEnemy_update_x game_idle
                (fst (RandomWalkEnemy_update game_idle walker_on_edge))) as H2.
  cbv zeta in H2. rewrite Hs1 in H2. destruct H2 as [Hx2 _].
  rewrite RandomWalkEnemy_update_speed, Hx1' in Hx2.
  cbn [rw_speed walker_on_edge] in Hx2.
  split; [apply walker_on_edge_reachable |].
  split; [reflexivity |]. split; [assumption |]. split; [assumption |].
  rewrite Hx2. lra.
Qed.

(** C5, amended: a random-walk enemy bounces at the canvas boundary.
    One update moves each coordinate by the speed in the direction of
    the axis; when the new coordinate is past the canvas edge ahead
    (beyond the width or the height, or below 0), the direction on
    that axis is reversed and the position is left where it is.  The
    position of an enemy spawned on the canvas therefore stays within
    one step (3) of the canvas on each axis. *)
Theorem C5_random_walk_bounces :
  (forall (g : Game) (e : RandomWalkEnemy),
      let e' := fst (RandomWalkEnemy_update g e) in
      match rw_state_x e with
      | moving_right =>
          rw_x e' = rw_x e + rw_speed e /\
          rw_state_x e' =
            if Rltb (IZR (canvas_width g)) (rw_x e') then moving_left else moving_right
      | moving_left =>
          rw_x e' = rw_x e - rw_speed e /\
          rw_state_x e' = if Rltb (rw_x e') 0 then moving_right else moving_left
      end /\
      match rw_state_y e with
      | moving_up =>
          rw_y e' = rw_y e + rw_speed e /\
          rw_state_y e' =
            if Rltb (IZR (canvas_height g)) (rw_y e') then moving_down else moving_up
      | moving_down =>
          rw_y e' = rw_y e - rw_speed e /\
          rw_state_y e' = if Rltb (rw_y e') 0 then moving_up else moving_down
      end) /\
  (forall (width height : Z) (e : RandomWalkEnemy),
      (0 <= width)%Z -> (0 <= height)%Z ->
      rw_reachable width height e ->
      -3 <= rw_x e <= IZR width + 3 /\ -3 <= rw_y e <= IZR height + 3).
Proof.
  split.
  - intros g e. split; [apply RandomWalkEnemy_update_x | apply RandomWalkEnemy_update_y].
  - intros width height e Hw Hh Hreach.
    destruct (rw_reachable_inv width height e Hw Hh Hreach) as (_ & Hx & Hy).
    apply IZR_le in Hw, Hh.
    destruct (rw_state_x e), (rw_state_y e); lra.
Qed.

Lemma C5_random_walk_bounces_witness :
  let e1 := fst (RandomWalkEnemy_update game_idle walker_on_edge) in
  -3 <= rw_x e1 <= 800 + 3 /\ -3 <= rw_y e1 <= 500 + 3.
Proof.
  apply (proj2 C5_random_walk_bounces 800%Z 500%Z); [lia | lia |].
  apply rw_updated; [reflexivity | reflexivity |].
  exact (rw_spawned 800 500 [0; 0]%Z [] _ 800 100
           (RandomWalkEnemy_init_run 20 []) ltac:(lia) ltac:(lia)).
Defined.

(** ** Fencing (C6) *)

Section Fencing.

Variable hm : Home.

Lemma FencingEnemy_update_move (g g' : Game) (e e' : FencingEnemy) :
  FencingEnemy_update g e = Some (e', g') -> FencingEnemy_move (home g) e = Some e'.
Proof.
  unfold FencingEnemy_update. destruct (FencingEnemy_move (home g) e); [| discriminate].
  intros H. injection H as <- _. reflexivity.
Qed.

Lemma FencingEnemy_move_update (g : Game) (e e' : FencingEnemy) :
  FencingEnemy_move (home g) e = Some e' ->
  exists g', FencingEnemy_update g e = Some (e', g').
Proof.
  intros H. unfold FencingEnemy_update. rewrite H. eexists. reflexivity.
Qed.

(** One move from a state of the invariant: it does not fail, it keeps
    the invariant, and either the direction stays and the way to go
    shrinks by 5 without reaching 0, or the way to go has shrunk to 0 or
    less and the direction is the next one. *)
Lemma fe_inv_move (e : FencingEnemy) :
  fe_inv hm e ->
  exists e' : FencingEnemy,
    FencingEnemy_move hm e = Some e' /\ fe_inv hm e' /\
    ((current_direction_index e' = current_direction_index e /\
      fe_to_go hm e' = fe_to_go hm e - 5 /\ 0 < fe_to_go hm e')
     \/
     (current_direction_index e' = ((current_direction_index e + 1) mod 4)%nat /\
      fe_to_go hm e - 5 <= 0)).
Proof.
  destruct e as [x y sz v ds i d]. unfold fe_inv, fe_to_go. cbn.
  intros (-> & -> & -> & Hpos).
  unfold FencingEnemy_move. cbn [directions current_direction_index].
  destruct i as [| [| [| [| i]]]]; try contradiction;
    cbn [nth_error String.eqb Ascii.eqb Bool.eqb fe_set_x fe_set_y fe_x fe_y fe_speed
         distance_from_home];
    match goal with |- context [Rleb ?a ?b] => destruct (Rleb a b) eqn:E end;
    first [apply Rleb_true in E | apply Rleb_false in E];
    eexists; (split; [reflexivity |]); cbn;
    (split; [repeat split; lra |]);
    first [left; repeat split; lra | right; split; [reflexivity | lra]].
Qed.

Lemma fe_inv_index (e : FencingEnemy) :
  fe_inv hm e -> (current_direction_index e < 4)%nat.
Proof.
  unfold fe_inv. intros (_ & _ & _ & H). cbv zeta in H.
  destruct (current_direction_index e) as [| [| [| [| i]]]]; try lia; contradiction.
Qed.

Lemma fe_inv_to_go (e : FencingEnemy) : fe_inv hm e -> fe_to_go hm e <= 105.
Proof.
  unfold fe_inv, fe_to_go. intros (_ & _ & _ & H). cbv zeta in H.
  destruct (current_direction_index e) as [| [| [| [| i]]]]; try contradiction; lra.
Qed.

Lemma fe_inv_box (e : FencingEnemy) :
  fe_inv hm e ->
  Rabs (fe_x e - home_x hm) <= 55 /\ Rabs (fe_y e - home_y hm) <= 55.
Proof.
  unfold fe_inv. intros (_ & _ & _ & H). cbv zeta in H.
  destruct (current_direction_index e) as [| [| [| [| i]]]]; try contradiction;
    split; apply Rabs_le; lra.
Qed.

Lemma fe_inv_init (g g' : Game) (size : R) (e : FencingEnemy) :
  home g = hm ->
  FencingEnemy_init g size = Some (e, g') ->
  fe_inv hm e /\
  fe_inv hm (fe_set_y (fe_set_x e (home_x hm + 50)) (home_y hm + 50)).
Proof.
  intros Hhome. rewrite FencingEnemy_init_eq. cbv zeta. intros H.
  injection H as <- _. rewrite Hhome. unfold fe_inv. cbn.
  split; repeat split; lra.
Qed.

Lemma fe_reachable_inv (e : FencingEnemy) : fe_reachable hm e -> fe_inv hm e.
Proof.
  induction 1 as [g g' size e Hh Hinit | g g' size e Hh Hinit | g g' e e' Hh _ IH Hupd].
  - apply (fe_inv_init g g' size e Hh Hinit).
  - apply (fe_inv_init g g' size e Hh Hinit).
  - apply FencingEnemy_update_move in Hupd. rewrite Hh in Hupd.
    destruct (fe_inv_move e IH) as (e1 & Hmove & Hinv & _).
    congruence.
Qed.

(** From a state of the invariant the next direction comes up within
    [n + 1] updates when the way to go is at most [5 * n + 5]. *)
Lemma fe_turns_within (n : nat) :
  forall e : FencingEnemy,
    fe_inv hm e ->
    fe_to_go hm e <= 5 * INR n + 5 ->
    exists (k : nat) (e' : FencingEnemy),
      (1 <= k <= n + 1)%nat /\
      fe_steps hm k e = Some e' /\
      current_direction_index e' = ((current_direction_index e + 1) mod 4)%nat.
Proof.
  induction n as [| n IH]; intros e Hinv Hgo.
  - destruct (fe_inv_move e Hinv) as (e1 & Hmove & _ & [(_ & Hd & Hpos) | (Hi & _)]).
    + cbn in Hgo. lra.
    + exists 1%nat, e1. split; [lia |]. cbn. rewrite Hmove. auto.
  - destruct (fe_inv_move e Hinv) as (e1 & Hmove & Hinv1 & [(Hi & Hd & Hpos) | (Hi & _)]).
    + rewrite S_INR in Hgo.
      destruct (IH e1 Hinv1) as (k & e' & Hk & Hsteps & Hidx); [lra |].
      exists (S k), e'. split; [lia |]. cbn. rewrite Hmove.
      split; [assumption |]. rewrite Hidx, Hi. reflexivity.
    + exists 1%nat, e1. split; [lia |]. cbn. rewrite Hmove. auto.
Qed.

End Fencing.

Lemma fence_constructed_init :
  FencingEnemy_init game_fence 20 =
    Some (fence_constructed, lose_if_hit game_fence (700 + 50 + 5) (250 + 50) 20).
Proof. rewrite FencingEnemy_init_eq. reflexivity. Qed.

Lemma fence_constructed_reachable : fe_reachable (home game_fence) fence_constructed.
Proof.
  exact (fe_constructed (home game_fence) game_fence _ 20 _ eq_refl fence_constructed_init).
Qed.

Lemma fence_placed_reachable : fe_reachable (home game_fence) fence_placed.
Proof.
  exact (fe_placed (home game_fence) game_fence _ 20 _ eq_refl fence_constructed_init).
Qed.

Lemma fence_placed_move :
  FencingEnemy_move (home game_fence) fence_placed =
    Some (mkFencing (700 + 50) (250 + 50 + 5) 20 5
                    ["right"; "down"; "left"; "up"]%string 2 50).
Proof.
  unfold FencingEnemy_move, fence_placed.
  cbn [directions current_direction_index nth_error String.eqb Ascii.eqb Bool.eqb
       fe_set_y fe_x fe_y fe_speed distance_from_home home game_fence home_y].
  replace (Rleb (250 + 50) (250 + 50 + 5)) with true
    by (symmetry; apply Rleb_true; lra).
  reflexivity.
Qed.

(** C6: the code misses the bound of 50 the claim states.  In a game
    with the home at (700, 250) the constructed [FencingEnemy] is at
    x = 755, which is 55 from the home although its
    [distance_from_home] is 50: the constructor puts it on the corner
    (home + 50, home + 50) and then calls [update], which moves it
    right, away from the square, before it turns.  Once [create_enemy]
    has put it back on the corner (750, 300), its first update takes it
    to y = 305, again 55 from the home. *)
Lemma C6_fencing_overshoots :
  fe_reachable (home game_fence) fence_constructed /\
  distance_from_home fence_constructed = 50 /\
  Rabs (fe_x fence_constructed - home_x (home game_fence)) = 55 /\
  exists (e1 : FencingEnemy) (g1 : Game),
    FencingEnemy_update game_fence fence_placed = Some (e1, g1) /\
    fe_reachable (home game_fence) e1 /\
    Rabs (fe_y e1 - home_y (home game_fence)) = 55.
Proof.
  split; [apply fence_constructed_reachable |]. split; [reflexivity |].
  split.
  - cbn. replace (700 + 50 + 5 - 700) with 55 by lra. apply Rabs_right. lra.
  - destruct (FencingEnemy_move_update game_fence fence_placed _ fence_placed_move)
      as (g1 & Hupd).
    eexists. exists g1. split; [exact Hupd |]. split.
    + exact (fe_updated (home game_fence) game_fence g1 fence_placed _ eq_refl
               fence_placed_reachable Hupd).
    + cbn. replace (250 + 50 + 5 - 250) with 55 by lra. apply Rabs_right. lra.
Qed.

(** How far the fencing enemy gets from the home, and how it turns.
    For every reachable state of a [FencingEnemy] (the constructed one,
    the one put on its spawn point, and their updates), |x - home.x|
    and |y - home.y| are at most 55, one step of its speed 5 past its
    [distance_from_home] of 50; the direction index stays below 4, so
    [update] never fails; an update keeps the direction or goes on to
    the next of right, down, left, up in that cyclic order; and the
    next direction comes up within 21 updates. *)
Lemma fencing_within_one_step (hm : Home) (e : FencingEnemy) :
  fe_reachable hm e ->
  Rabs (fe_x e - home_x hm) <= 55 /\
  Rabs (fe_y e - home_y hm) <= 55 /\
  distance_from_home e = 50 /\ fe_speed e = 5 /\
  directions e = ["right"; "down"; "left"; "up"]%string /\
  (current_direction_index e < 4)%nat /\
  (forall g : Game,
      home g = hm ->
      exists (e' : FencingEnemy) (g' : Game),
        FencingEnemy_update g e = Some (e', g') /\
        (current_direction_index e' = current_direction_index e \/
         current_direction_index e' = ((current_direction_index e + 1) mod 4)%nat)) /\
  (exists (k : nat) (e' : FencingEnemy),
      (1 <= k <= 21)%nat /\
      fe_steps hm k e = Some e' /\
      current_direction_index e' = ((current_direction_index e + 1) mod 4)%nat).
Proof.
  intros Hreach. pose proof (fe_reachable_inv hm e Hreach) as Hinv.
  destruct (fe_inv_box hm e Hinv) as [Hx Hy].
  pose proof Hinv as (Hv & Hds & Hd & _).
  repeat (split; [assumption |]).
  split; [apply (fe_inv_index hm), Hinv |]. split.
  - intros g Hg. destruct (fe_inv_move hm e Hinv) as (e' & Hmove & _ & Hnext).
    rewrite <- Hg in Hmove.
    destruct (FencingEnemy_move_update g e e' Hmove) as (g' & Hupd).
    exists e', g'. split; [assumption |]. tauto.
  - destruct (fe_turns_within hm 20 e Hinv) as (k & e' & Hk & Hsteps & Hidx).
    + pose proof (fe_inv_to_go hm e Hinv). cbn. lra.
    + exists k, e'. repeat split; try assumption; lia.
Qed.


(** * More properties of the game *)

(** ** Steps toward a target *)

Section Steps.

Lemma norm2_zero (dx dy : R) : norm2 dx dy = 0 -> dx = 0 /\ dy = 0.
Proof.
  intros H. pose proof (norm2_sqr dx dy) as Hs. rewrite H in Hs.
  split; nra.
Qed.

Lemma norm2_origin : norm2 0 0 = 0.
Proof. apply norm2_is; lra. Qed.

Lemma norm2_opp (dx dy : R) : norm2 (- dx) (- dy) = norm2 dx dy.
Proof.
  apply norm2_is; [apply norm2_nonneg |]. rewrite norm2_sqr. ring.
Qed.

Lemma shortened_norm (dx dy v : R) :
  dx <> 0 \/ dy <> 0 ->
  norm2 (dx - v * (dx / norm2 dx dy)) (dy - v * (dy / norm2 dx dy))
  = Rabs (norm2 dx dy - v).
Proof.
  intros Hne.
  pose proof (norm2_pos dx dy Hne) as Hd. pose proof (norm2_sqr dx dy) as Hs.
  apply norm2_is; [apply Rabs_pos |].
  replace (Rabs (norm2 dx dy - v) * Rabs (norm2 dx dy - v))
    with ((norm2 dx dy - v) * (norm2 dx dy - v))
    by (unfold Rabs; destruct (Rcase_abs _); ring).
  replace (dx - v * (dx / norm2 dx dy)) with (dx * (1 - v / norm2 dx dy))
    by (field; lra).
  replace (dy - v * (dy / norm2 dx dy)) with (dy * (1 - v / norm2 dx dy))
    by (field; lra).
  replace ((dx * (1 - v / norm2 dx dy)) ^ 2 + (dy * (1 - v / norm2 dx dy)) ^ 2)
    with ((dx ^ 2 + dy ^ 2) * ((1 - v / norm2 dx dy) * (1 - v / norm2 dx dy)))
    by ring.
  rewrite <- Hs. field. lra.
Qed.

(** A step of length [v] from [(px, py)] along the bearing of
    [(tx, ty)] leaves the distance [|d - v|] to the target, [d] being
    the distance before the step. *)
Lemma step_toward_distance (px py tx ty v : R) :
  0 <= v ->
  norm2 (tx - (px + v * cos (atan2 (ty - py) (tx - px))))
        (ty - (py + v * sin (atan2 (ty - py) (tx - px))))
  = Rabs (norm2 (tx - px) (ty - py) - v).
Proof.
  intros Hv.
  replace (tx - (px + v * cos (atan2 (ty - py) (tx - px))))
    with ((tx - px) - v * cos (atan2 (ty - py) (tx - px))) by ring.
  replace (ty - (py + v * sin (atan2 (ty - py) (tx - px))))
    with ((ty - py) - v * sin (atan2 (ty - py) (tx - px))) by ring.
  generalize (tx - px) (ty - py). intros dx dy.
  destruct (Req_dec dx 0) as [Hx | Hx]; [destruct (Req_dec dy 0) as [Hy | Hy] |].
  - subst dx dy. rewrite norm2_origin.
    replace (0 - v * cos (atan2 0 0)) with (- (v * cos (atan2 0 0))) by ring.
    replace (0 - v * sin (atan2 0 0)) with (- (v * sin (atan2 0 0))) by ring.
    rewrite norm2_opp, step_length by assumption.
    replace (0 - v) with (- v) by ring. rewrite Rabs_Ropp, Rabs_right; lra.
  - rewrite cos_atan2, sin_atan2 by (right; assumption).
    apply shortened_norm. right; assumption.
  - rewrite cos_atan2, sin_atan2 by (left; assumption).
    apply shortened_norm. left; assumption.
Qed.

End Steps.

(** ** The player on its way to the waypoint *)

Section PlayerWalk.

Lemma Player_update_speed (g : Game) :
  speed (player (Player_update g)) = speed (player g).
Proof.
  unfold Player_update.
  destruct (contains _ _ _); cbn;
    destruct (is_active (waypoint g)); cbn;
    try destruct (Rltb _ _); reflexivity.
Qed.

Lemma Player_update_waypoint_place (g : Game) :
  wp_x (waypoint (Player_update g)) = wp_x (waypoint g) /\
  wp_y (waypoint (Player_update g)) = wp_y (waypoint g).
Proof.
  unfold Player_update.
  destruct (contains _ _ _); cbn;
    destruct (is_active (waypoint g)); cbn;
    try destruct (Rltb _ _); cbn; auto.
Qed.

Lemma Player_update_rest (g : Game) :
  is_active (waypoint g) = false ->
  player (Player_update g) = player g /\ waypoint (Player_update g) = waypoint g.
Proof.
  intros Hin. rewrite Player_update_inactive by assumption.
  destruct (at_home g); auto.
Qed.

Lemma Player_updates_rest (n : nat) :
  forall g : Game,
    is_active (waypoint g) = false ->
    player (Player_updates n g) = player g /\
    waypoint (Player_updates n g) = waypoint g.
Proof.
  induction n as [| n IH]; intros g Hin; cbn; [auto |].
  destruct (Player_update_rest g Hin) as [Hp Hw].
  destruct (IH (Player_update g)) as [Hp' Hw']; [congruence |].
  split; congruence.
Qed.

Lemma Player_updates_add (m n : nat) (g : Game) :
  Player_updates (m + n) g = Player_updates n (Player_updates m g).
Proof.
  revert g. induction m as [| m IH]; intros g; cbn; [reflexivity | apply IH].
Qed.

Lemma stepped_to_waypoint (g : Game) :
  0 <= speed (player g) ->
  distance (stepped g) (wp_x (waypoint g)) (wp_y (waypoint g))
  = Rabs (to_waypoint g - speed (player g)).
Proof.
  intros Hv. unfold stepped, to_waypoint, distance, forward, setheading, towards.
  cbn [xcor ycor heading]. apply step_toward_distance. assumption.
Qed.

Lemma Player_update_to_waypoint (g : Game) :
  is_active (waypoint g) = true ->
  0 <= speed (player g) ->
  to_waypoint (Player_update g) = Rabs (to_waypoint g - speed (player g)).
Proof.
  intros Hact Hv. unfold to_waypoint at 1.
  destruct (Player_update_waypoint_place g) as [-> ->].
  rewrite Player_update_player by assumption. cbn [turtle].
  apply stepped_to_waypoint. assumption.
Qed.

Lemma Player_update_deactivates (g : Game) :
  is_active (waypoint g) = true ->
  0 <= speed (player g) ->
  (is_active (waypoint (Player_update g)) = false <->
   0 < to_waypoint g < 2 * speed (player g)).
Proof.
  intros Hact Hv. rewrite Player_update_waypoint by assumption.
  rewrite stepped_to_waypoint by assumption.
  destruct (Rltb _ _) eqn:E.
  - apply Rltb_true in E. cbn. split; [intros _ | reflexivity].
    apply Rabs_def2 in E. lra.
  - apply Rltb_false in E. rewrite Hact. split; [discriminate |].
    intros Hd. exfalso.
    assert (Rabs (to_waypoint g - speed (player g)) < speed (player g))
      by (apply Rabs_def1; lra).
    lra.
Qed.

(** One tick with an active waypoint at distance [d]: the player ends at
    distance [|d - speed|], and the waypoint is deactivated exactly when
    [0 < d < 2 * speed]. *)
Theorem Player_update_closes_in (g : Game) :
  is_active (waypoint g) = true ->
  0 <= speed (player g) ->
  to_waypoint (Player_update g) = Rabs (to_waypoint g - speed (player g)) /\
  (is_active (waypoint (Player_update g)) = false <->
   0 < to_waypoint g < 2 * speed (player g)).
Proof.
  intros Hact Hv. split.
  - apply Player_update_to_waypoint; assumption.
  - apply Player_update_deactivates; assumption.
Qed.

Lemma to_waypoint_near : to_waypoint game_near_waypoint = 7.
Proof.
  unfold to_waypoint, distance. cbn. apply norm2_is; lra.
Qed.

Lemma Player_update_closes_in_witness :
  to_waypoint (Player_update game_near_waypoint) = Rabs (7 - 5) /\
  (is_active (waypoint (Player_update game_near_waypoint)) = false <-> 0 < 7 < 2 * 5).
Proof.
  assert (Hv : 0 <= speed (player game_near_waypoint)) by (cbn; lra).
  pose proof (Player_update_closes_in game_near_waypoint eq_refl Hv) as H.
  rewrite to_waypoint_near in H. exact H.
Defined.

(** The player gets there: with a positive speed and the waypoint
    active at a distance [d] with [0 < d < (n + 2) * speed], some tick
    among the first [n + 1] deactivates the waypoint, with the player
    less than one speed away from it, and from that tick on the player
    and the waypoint stay as they are. *)
Theorem Player_arrives (n : nat) :
  forall g : Game,
    is_active (waypoint g) = true ->
    0 < speed (player g) ->
    0 < to_waypoint g < (INR n + 2) * speed (player g) ->
    exists m : nat,
      (1 <= m <= n + 1)%nat /\
      is_active (waypoint (Player_updates m g)) = false /\
      to_waypoint (Player_updates m g) < speed (player g) /\
      wp_x (waypoint (Player_updates m g)) = wp_x (waypoint g) /\
      wp_y (waypoint (Player_updates m g)) = wp_y (waypoint g) /\
      forall j : nat,
        player (Player_updates (m + j) g) = player (Player_updates m g) /\
        waypoint (Player_updates (m + j) g) = waypoint (Player_updates m g).
Proof.
  assert (Hone : forall g : Game,
             is_active (waypoint g) = true -> 0 < speed (player g) ->
             0 < to_waypoint g < 2 * speed (player g) ->
             is_active (waypoint (Player_updates 1 g)) = false /\
             to_waypoint (Player_updates 1 g) < speed (player g) /\
             wp_x (waypoint (Player_updates 1 g)) = wp_x (waypoint g) /\
             wp_y (waypoint (Player_updates 1 g)) = wp_y (waypoint g) /\
             forall j : nat,
               player (Player_updates (1 + j) g) = player (Player_updates 1 g) /\
               waypoint (Player_updates (1 + j) g) = waypoint (Player_updates 1 g)).
  { intros g Hact Hv Hd. cbn [Player_updates].
    assert (Hv' : 0 <= speed (player g)) by lra.
    assert (Hoff : is_active (waypoint (Player_update g)) = false)
      by (apply Player_update_deactivates; assumption).
    split; [assumption |]. split.
    - rewrite Player_update_to_waypoint by assumption. apply Rabs_def1; lra.
    - split; [apply Player_update_waypoint_place |].
      split; [apply Player_update_waypoint_place |].
      intros j. cbn [plus Player_updates]. apply Player_updates_rest, Hoff. }
  induction n as [| n IH]; intros g Hact Hv Hd.
  - exists 1%nat. split; [lia |]. apply Hone; try assumption. cbn in Hd. lra.
  - destruct (Rlt_dec (to_waypoint g) (2 * speed (player g))) as [Hnear | Hfar].
    + exists 1%nat. split; [lia |]. apply Hone; try assumption. lra.
    + assert (Hv' : 0 <= speed (player g)) by lra.
      assert (Hon : is_active (waypoint (Player_update g)) = true).
      { destruct (is_active (waypoint (Player_update g))) eqn:E; [reflexivity |].
        apply Player_update_deactivates in E; try assumption. lra. }
      assert (Hd' : to_waypoint (Player_update g) = to_waypoint g - speed (player g)).
      { rewrite Player_update_to_waypoint by assumption. apply Rabs_right. lra. }
      rewrite S_INR in Hd.
      destruct (IH (Player_update g)) as (m & Hm & Hoff & Hclose & Hwx & Hwy & Hrest).
      * assumption.
      * rewrite Player_update_speed. assumption.
      * rewrite Player_update_speed, Hd'. lra.
      * rewrite Player_update_speed in Hclose.
        destruct (Player_update_waypoint_place g) as [Ex Ey].
        exists (S m). split; [lia |]. cbn [Player_updates plus].
        repeat split; try assumption; try congruence; apply Hrest.
Qed.

Lemma Player_arrives_witness :
  exists m : nat,
    (1 <= m <= 1)%nat /\
    is_active (waypoint (Player_updates m game_near_waypoint)) = false /\
    to_waypoint (Player_updates m game_near_waypoint) < 5.
Proof.
  assert (Hv : 0 < speed (player game_near_waypoint)) by (cbn; lra).
  assert (Hd : 0 < to_waypoint game_near_waypoint
               < (INR 0 + 2) * speed (player game_near_waypoint))
    by (rewrite to_waypoint_near; cbn; lra).
  destruct (Player_arrives 0 game_near_waypoint eq_refl Hv Hd)
    as (m & Hm & Hoff & Hclose & _).
  exists m. auto.
Defined.

End PlayerWalk.

Section ClickOnTurtle.

Lemma atan2_origin : atan2 0 0 = 0.
Proof.
  unfold atan2. destruct (Rlt_dec 0 0); [lra | reflexivity].
Qed.

Lemma to_waypoint_zero (g : Game) :
  to_waypoint g = 0 ->
  player_x (player g) = wp_x (waypoint g) /\ player_y (player g) = wp_y (waypoint g).
Proof.
  unfold to_waypoint, distance, player_x, player_y. intros H.
  apply norm2_zero in H. lra.
Qed.

(** A click on the turtle's own position does not stop it: the next
    tick takes the player one speed to the right (the bearing of a
    point to itself is 0) and leaves the waypoint active, and the tick
    after that brings the player back and deactivates the waypoint. *)
Theorem click_on_turtle (g : Game) :
  0 < speed (player g) ->
  let g0 := click g (player_x (player g)) (player_y (player g)) in
  let g1 := Player_update g0 in
  let g2 := Player_update g1 in
  player_x (player g1) = player_x (player g) + speed (player g) /\
  player_y (player g1) = player_y (player g) /\
  is_active (waypoint g1) = true /\
  player_x (player g2) = player_x (player g) /\
  player_y (player g2) = player_y (player g) /\
  is_active (waypoint g2) = false.
Proof.
  intros Hv. cbv zeta.
  set (g0 := click g (player_x (player g)) (player_y (player g))).
  assert (Hact0 : is_active (waypoint g0) = true) by reflexivity.
  assert (Hv0 : 0 <= speed (player g0)) by (cbn; lra).
  assert (Hd0 : to_waypoint g0 = 0).
  { unfold to_waypoint, distance, g0, click, player_x, player_y. cbn.
    replace (xcor (turtle (player g)) - xcor (turtle (player g))) with 0 by ring.
    replace (ycor (turtle (player g)) - ycor (turtle (player g))) with 0 by ring.
    apply norm2_origin. }
  assert (Hpos1 : player_x (player (Player_update g0)) = player_x (player g) + speed (player g)
                  /\ player_y (player (Player_update g0)) = player_y (player g)).
  { rewrite Player_update_player by assumption.
    unfold stepped, forward, setheading, towards, g0, click, player_x, player_y. cbn.
    replace (xcor (turtle (player g)) - xcor (turtle (player g))) with 0 by ring.
    replace (ycor (turtle (player g)) - ycor (turtle (player g))) with 0 by ring.
    rewrite atan2_origin, cos_0, sin_0. split; ring. }
  assert (Hact1 : is_active (waypoint (Player_update g0)) = true).
  { destruct (is_active (waypoint (Player_update g0))) eqn:E; [reflexivity |].
    apply Player_update_deactivates in E; try assumption. lra. }
  assert (Hd1 : to_waypoint (Player_update g0) = speed (player g)).
  { rewrite Player_update_to_waypoint, Hd0 by assumption. cbn.
    replace (0 - speed (player g)) with (- speed (player g)) by ring.
    rewrite Rabs_Ropp. apply Rabs_right. lra. }
  assert (Hv1 : 0 <= speed (player (Player_update g0)))
    by (rewrite Player_update_speed; assumption).
  assert (Hs1 : speed (player (Player_update g0)) = speed (player g))
    by (rewrite Player_update_speed; reflexivity).
  assert (Hd2 : to_waypoint (Player_update (Player_update g0)) = 0).
  { rewrite Player_update_to_waypoint, Hd1, Hs1 by assumption.
    replace (speed (player g) - speed (player g)) with 0 by ring. apply Rabs_R0. }
  apply to_waypoint_zero in Hd2. destruct Hd2 as [Hx2 Hy2].
  destruct (Player_update_waypoint_place (Player_update g0)) as [Ex1 Ey1].
  destruct (Player_update_waypoint_place g0) as [Ex0 Ey0].
  destruct Hpos1 as [Hx1 Hy1].
  repeat split; try assumption.
  - rewrite Hx2, Ex1, Ex0. reflexivity.
  - rewrite Hy2, Ey1, Ey0. reflexivity.
  - apply Player_update_deactivates; try assumption. rewrite Hd1, Hs1. lra.
Qed.

Lemma click_on_turtle_witness :
  let g0 := click game_idle 50 250 in
  player_x (player (Player_update g0)) = 50 + 5 /\
  player_x (player (Player_update (Player_update g0))) = 50 /\
  is_active (waypoint (Player_update (Player_update g0))) = false.
Proof.
  assert (Hv : 0 < speed (player game_idle)) by (cbn; lra).
  pose proof (click_on_turtle game_idle Hv) as H. cbv zeta in H.
  destruct H as (H1 & _ & _ & H4 & _ & H6).
  exact (conj H1 (conj H4 H6)).
Defined.

End ClickOnTurtle.

(** ** Enemies that chase *)

Section Chase.

Lemma Rabs_le_norm2_l (dx dy : R) : Rabs dx <= norm2 dx dy.
Proof.
  pose proof (norm2_nonneg dx dy) as Hn. pose proof (norm2_sqr dx dy) as Hs.
  apply Rabs_le. split; nra.
Qed.

Lemma Rabs_le_norm2_r (dx dy : R) : Rabs dy <= norm2 dx dy.
Proof.
  pose proof (norm2_nonneg dx dy) as Hn. pose proof (norm2_sqr dx dy) as Hs.
  apply Rabs_le. split; nra.
Qed.

(** An enemy whose centre is less than half its size from the player
    hits the player. *)
Lemma hits_player_near (ex ey size px py : R) :
  norm2 (px - ex) (py - ey) < size / 2 -> hits_player ex ey size px py = true.
Proof.
  intros Hnear. apply hits_player_open_box.
  pose proof (Rabs_le_norm2_l (px - ex) (py - ey)) as Hx.
  pose proof (Rabs_le_norm2_r (px - ex) (py - ey)) as Hy.
  assert (Hx' : Rabs (px - ex) < size / 2) by lra.
  assert (Hy' : Rabs (py - ey) < size / 2) by lra.
  apply Rabs_def2 in Hx', Hy'. lra.
Qed.

Lemma lose_if_hit_player (g : Game) (ex ey size : R) :
  player (lose_if_hit g ex ey size) = player g.
Proof. unfold lose_if_hit. destruct (hits_player _ _ _ _ _); reflexivity. Qed.

Lemma lose_if_hit_status (g : Game) (ex ey size : R) :
  status (lose_if_hit g ex ey size) =
    if hits_player ex ey size (player_x (player g)) (player_y (player g))
    then YouLose else status g.
Proof. unfold lose_if_hit. destruct (hits_player _ _ _ _ _); reflexivity. Qed.

Lemma lose_if_hit_lost (g : Game) (ex ey size : R) :
  status g = YouLose -> status (lose_if_hit g ex ey size) = YouLose.
Proof.
  intros H. rewrite lose_if_hit_status. destruct (hits_player _ _ _ _ _); auto.
Qed.

Lemma ChasingEnemy_update_gap (g : Game) (e : ChasingEnemy) :
  0 <= ch_speed e ->
  chase_gap g (fst (ChasingEnemy_update g e)) = Rabs (chase_gap g e - ch_speed e).
Proof.
  intros Hv. unfold chase_gap. cbn. apply step_toward_distance. assumption.
Qed.

Lemma ChasingEnemy_update_fields (g : Game) (e : ChasingEnemy) :
  ch_speed (fst (ChasingEnemy_update g e)) = ch_speed e /\
  ch_size (fst (ChasingEnemy_update g e)) = ch_size e /\
  player (snd (ChasingEnemy_update g e)) = player g.
Proof. cbn. rewrite lose_if_hit_player. auto. Qed.

Lemma ChasingEnemy_update_hit (g : Game) (e : ChasingEnemy) :
  0 <= ch_speed e ->
  Rabs (chase_gap g e - ch_speed e) < ch_size e / 2 ->
  status (snd (ChasingEnemy_update g e)) = YouLose.
Proof.
  intros Hv Hnear. rewrite <- ChasingEnemy_update_gap in Hnear by assumption.
  unfold chase_gap in Hnear. cbn in *.
  rewrite lose_if_hit_status, hits_player_near by assumption. reflexivity.
Qed.

Lemma ChasingEnemy_updates_lost (n : nat) :
  forall (g : Game) (e : ChasingEnemy),
    status g = YouLose -> status (snd (ChasingEnemy_updates n g e)) = YouLose.
Proof.
  induction n as [| n IH]; intros g e Hlost; [assumption |].
  cbn [ChasingEnemy_updates].
  destruct (ChasingEnemy_update g e) as [e1 g1] eqn:E.
  apply IH. replace g1 with (snd (ChasingEnemy_update g e)) by (rewrite E; reflexivity).
  cbn. apply lose_if_hit_lost. assumption.
Qed.

(** One update of a chasing enemy at distance [d] from the player
    leaves it at distance [|d - speed|]; when that is less than half
    the enemy's size the update ends the game with [game_over_lose].
    The update does not touch the player. *)
Theorem chasing_closes_in (g : Game) (e : ChasingEnemy) :
  0 <= ch_speed e ->
  let e' := fst (ChasingEnemy_update g e) in
  let g' := snd (ChasingEnemy_update g e) in
  chase_gap g e' = Rabs (chase_gap g e - ch_speed e) /\
  (chase_gap g e' < ch_size e / 2 -> status g' = YouLose) /\
  player g' = player g.
Proof.
  intros Hv. cbv zeta. split; [apply ChasingEnemy_update_gap; assumption |].
  split; [| apply ChasingEnemy_update_fields].
  rewrite ChasingEnemy_update_gap by assumption.
  apply ChasingEnemy_update_hit. assumption.
Qed.

(** A player who stays where it is gets caught: a chasing enemy whose
    speed is positive and below half its size (3 and 20 from the
    constructor), at a distance below [(n + 1) * speed + size / 2],
    has ended the game with [game_over_lose] after [n + 1] updates. *)
Theorem chasing_catches (n : nat) :
  forall (g : Game) (e : ChasingEnemy),
    0 < ch_speed e < ch_size e / 2 ->
    chase_gap g e < (INR n + 1) * ch_speed e + ch_size e / 2 ->
    status (snd (ChasingEnemy_updates (S n) g e)) = YouLose.
Proof.
  assert (Hone : forall (g : Game) (e : ChasingEnemy),
             0 < ch_speed e < ch_size e / 2 ->
             chase_gap g e < ch_speed e + ch_size e / 2 ->
             status (snd (ChasingEnemy_update g e)) = YouLose).
  { intros g e Hv Hd. apply ChasingEnemy_update_hit; [lra |].
    pose proof (norm2_nonneg (player_x (player g) - ch_x e) (player_y (player g) - ch_y e)).
    unfold chase_gap in *. apply Rabs_def1; lra. }
  induction n as [| n IH]; intros g e Hv Hd.
  - cbn [ChasingEnemy_updates].
    destruct (ChasingEnemy_update g e) as [e1 g1] eqn:E. cbn.
    replace g1 with (snd (ChasingEnemy_update g e)) by (rewrite E; reflexivity).
    apply Hone; [assumption |]. cbn in Hd. lra.
  - cbn [ChasingEnemy_updates].
    destruct (ChasingEnemy_update g e) as [e1 g1] eqn:E.
    assert (E1 : e1 = fst (ChasingEnemy_update g e)) by (rewrite E; reflexivity).
    assert (G1 : g1 = snd (ChasingEnemy_update g e)) by (rewrite E; reflexivity).
    destruct (ChasingEnemy_update_fields g e) as (Hs & Hz & Hp).
    rewrite <- E1 in Hs, Hz. rewrite <- G1 in Hp.
    destruct (Rlt_dec (chase_gap g e) (ch_speed e + ch_size e / 2)) as [Hnear | Hfar].
    + apply (ChasingEnemy_updates_lost (S n)). rewrite G1. apply Hone; assumption.
    + apply IH; [rewrite Hs, Hz; assumption |].
      assert (Hgap : chase_gap g1 e1 = chase_gap g e - ch_speed e).
      { unfold chase_gap at 1. rewrite Hp. fold (chase_gap g e1). rewrite E1.
        rewrite ChasingEnemy_update_gap by lra. apply Rabs_right. lra. }
      rewrite Hgap, Hs, Hz. rewrite S_INR in Hd. lra.
Qed.

Lemma chase_gap_started :
  chase_gap game_started (mkChasing 300 400 20 3) < (INR 95 + 1) * 3 + 20 / 2.
Proof.
  unfold chase_gap. cbn -[INR].
  replace (INR 95) with 95 by (rewrite INR_IZR_INZ; reflexivity).
  apply norm2_lt_iff; lra.
Qed.

Lemma chasing_catches_witness :
  status (snd (ChasingEnemy_updates 96 game_started (mkChasing 300 400 20 3))) = YouLose.
Proof.
  assert (Hv : 0 < 3 < 20 / 2) by lra.
  exact (chasing_catches 95 game_started (mkChasing 300 400 20 3) Hv chase_gap_started).
Defined.

Lemma chasing_closes_in_witness :
  chase_gap game_started (fst (ChasingEnemy_update game_started (mkChasing 300 400 20 3)))
  = Rabs (chase_gap game_started (mkChasing 300 400 20 3) - 3).
Proof.
  assert (Hv : 0 <= 3) by lra.
  exact (proj1 (chasing_closes_in game_started (mkChasing 300 400 20 3) Hv)).
Defined.

End Chase.

(** ** The boss over time *)

Section BossOverTime.

Lemma BossEnemy_update_fields (g : Game) (e : BossEnemy) :
  bs_size (fst (BossEnemy_update g e)) = bs_size e + growth_rate e /\
  bs_speed (fst (BossEnemy_update g e)) = bs_speed e + 1 / 1000 /\
  growth_rate (fst (BossEnemy_update g e)) = growth_rate e /\
  num_fake_homes (fst (BossEnemy_update g e)) = num_fake_homes e /\
  player (snd (BossEnemy_update g e)) = player g.
Proof. cbn. rewrite lose_if_hit_player. auto. Qed.

(** After [n] ticks, whatever else has happened in the game in
    between, the boss has grown by [n] times its growth rate and its
    speed by [n] thousandths: a boss from the constructor has size
    [20 + 0.7 n] and speed [3 + 0.001 n]. *)
Theorem boss_grows_linearly (gs : list Game) :
  forall e : BossEnemy,
    bs_size (BossEnemy_over gs e) = bs_size e + INR (length gs) * growth_rate e /\
    bs_speed (BossEnemy_over gs e) = bs_speed e + INR (length gs) / 1000 /\
    growth_rate (BossEnemy_over gs e) = growth_rate e /\
    (forall g0 : Game,
        bs_size (BossEnemy_over gs (fst (BossEnemy_init g0 20)))
          = 20 + INR (length gs) * (7 / 10) /\
        bs_speed (BossEnemy_over gs (fst (BossEnemy_init g0 20)))
          = 3 + INR (length gs) / 1000).
Proof.
  assert (Hgen : forall e : BossEnemy,
             bs_size (BossEnemy_over gs e) = bs_size e + INR (length gs) * growth_rate e /\
             bs_speed (BossEnemy_over gs e) = bs_speed e + INR (length gs) / 1000 /\
             growth_rate (BossEnemy_over gs e) = growth_rate e).
  { induction gs as [| g gs IH]; intros e.
    - cbn. repeat split; lra.
    - cbn [BossEnemy_over length]. rewrite S_INR.
      destruct (IH (fst (BossEnemy_update g e))) as (Hs & Hv & Hg).
      destruct (BossEnemy_update_fields g e) as (Fs & Fv & Fg & _).
      rewrite Hs, Hv, Hg, Fs, Fv, Fg. repeat split; lra. }
  intros e. destruct (Hgen e) as (Hs & Hv & Hg).
  repeat split; try assumption.
  - destruct (Hgen (fst (BossEnemy_init g0 20))) as (Hs' & _). exact Hs'.
  - destruct (Hgen (fst (BossEnemy_init g0 20))) as (_ & Hv' & _). exact Hv'.
Qed.

Lemma BossEnemy_update_gap (g : Game) (e : BossEnemy) :
  0 <= bs_speed e ->
  boss_gap g (fst (BossEnemy_update g e)) = Rabs (boss_gap g e - bs_speed e).
Proof.
  intros Hv. unfold boss_gap. cbn. apply step_toward_distance. assumption.
Qed.

Lemma BossEnemy_update_hit (g : Game) (e : BossEnemy) :
  0 <= bs_speed e ->
  Rabs (boss_gap g e - bs_speed e) < (bs_size e + growth_rate e) / 2 ->
  status (snd (BossEnemy_update g e)) = YouLose.
Proof.
  intros Hv Hnear. rewrite <- BossEnemy_update_gap in Hnear by assumption.
  unfold boss_gap in Hnear. cbn in *.
  rewrite lose_if_hit_status, hits_player_near by assumption. reflexivity.
Qed.

Lemma BossEnemy_updates_lost (n : nat) :
  forall (g : Game) (e : BossEnemy),
    status g = YouLose -> status (snd (BossEnemy_updates n g e)) = YouLose.
Proof.
  induction n as [| n IH]; intros g e Hlost; [assumption |].
  cbn [BossEnemy_updates].
  destruct (BossEnemy_update g e) as [e1 g1] eqn:E.
  apply IH. replace g1 with (snd (BossEnemy_update g e)) by (rewrite E; reflexivity).
  cbn. apply lose_if_hit_lost. assumption.
Qed.

(** A player who stays where it is gets caught by the boss: with a
    speed that is positive and below half the size (3 and 20 from the
    constructor) and a growth rate of at least 0.002 (0.7 from the
    constructor), a boss at a distance below
    [(n + 1) * speed + size / 2] has ended the game with
    [game_over_lose] after [n + 1] updates. *)
Theorem boss_catches (n : nat) :
  forall (g : Game) (e : BossEnemy),
    0 < bs_speed e < bs_size e / 2 ->
    1 / 500 <= growth_rate e ->
    boss_gap g e < (INR n + 1) * bs_speed e + bs_size e / 2 ->
    status (snd (BossEnemy_updates (S n) g e)) = YouLose.
Proof.
  assert (Hone : forall (g : Game) (e : BossEnemy),
             0 < bs_speed e < bs_size e / 2 -> 1 / 500 <= growth_rate e ->
             boss_gap g e < bs_speed e + bs_size e / 2 ->
             status (snd (BossEnemy_update g e)) = YouLose).
  { intros g e Hv Hgr Hd. apply BossEnemy_update_hit; [lra |].
    pose proof (norm2_nonneg (player_x (player g) - bs_x e) (player_y (player g) - bs_y e)).
    unfold boss_gap in *. apply Rabs_def1; lra. }
  induction n as [| n IH]; intros g e Hv Hgr Hd.
  - cbn [BossEnemy_updates].
    destruct (BossEnemy_update g e) as [e1 g1] eqn:E. cbn.
    replace g1 with (snd (BossEnemy_update g e)) by (rewrite E; reflexivity).
    apply Hone; try assumption. cbn in Hd. lra.
  - cbn [BossEnemy_updates].
    destruct (BossEnemy_update g e) as [e1 g1] eqn:E.
    assert (E1 : e1 = fst (BossEnemy_update g e)) by (rewrite E; reflexivity).
    assert (G1 : g1 = snd (BossEnemy_update g e)) by (rewrite E; reflexivity).
    destruct (BossEnemy_update_fields g e) as (Hz & Hs & Hg & _ & Hp).
    rewrite <- E1 in Hs, Hz, Hg. rewrite <- G1 in Hp.
    destruct (Rlt_dec (boss_gap g e) (bs_speed e + bs_size e / 2)) as [Hnear | Hfar].
    + apply (BossEnemy_updates_lost (S n)). rewrite G1. apply Hone; assumption.
    + assert (Hgap : boss_gap g1 e1 = boss_gap g e - bs_speed e).
      { unfold boss_gap at 1. rewrite Hp. fold (boss_gap g e1). rewrite E1.
        rewrite BossEnemy_update_gap by lra. apply Rabs_right. lra. }
      pose proof (pos_INR n) as Hn.
      apply IH; rewrite ?Hgap, ?Hs, ?Hz, ?Hg; try lra.
      rewrite S_INR in Hd. nra.
Qed.

Lemma boss_gap_spawned :
  boss_gap game_boss_spawned (mkBoss 300 400 20 5 3 (7 / 10))
  < (INR 95 + 1) * 3 + 20 / 2.
Proof.
  unfold boss_gap. cbn -[INR].
  replace (INR 95) with 95 by (rewrite INR_IZR_INZ; reflexivity).
  apply norm2_lt_iff; lra.
Qed.

Lemma boss_catches_witness :
  status (snd (BossEnemy_updates 96 game_boss_spawned (mkBoss 300 400 20 5 3 (7 / 10))))
  = YouLose.
Proof.
  assert (Hv : 0 < 3 < 20 / 2) by lra.
  assert (Hg : 1 / 500 <= 7 / 10) by lra.
  exact (boss_catches 95 game_boss_spawned (mkBoss 300 400 20 5 3 (7 / 10))
           Hv Hg boss_gap_spawned).
Defined.

End BossOverTime.

(** ** More on [create_enemy] and [init_game] *)

Section Spawning.

Lemma build_enemy_cases (level : Z) (g : Game) (s : list Z) (e : Enemy) (g1 : Game) (s1 : list Z) :
  build_enemy level g s = Some ((e, g1), s1) ->
  enemy_of_level level e /\
  (exists fakes : list Home,
      elements g1 = elements g ++ map ElHome fakes /\
      ((level mod 4 <> 0)%Z -> fakes = [])) /\
  ((level mod 4 <> 3)%Z -> status g1 = status g) /\
  ((level mod 4 = 3)%Z ->
   s1 = s /\
   g1 = lose_if_hit g (home_x (home g) + 50 + 5) (home_y (home g) + 50) 20).
Proof.
  unfold build_enemy. intros Hrun.
  destruct (Z.eqb_spec (level mod 4) 1) as [H1 | H1].
  { run_inv Hrun. injection Hrun as -> -> _.
    apply RandomWalkEnemy_init_inv in Hrun0. destruct Hrun0 as (Hv & Hsz & _).
    split; [cbn; auto |]. split; [exists []; cbn; rewrite app_nil_r; auto |].
    split; [reflexivity | lia]. }
  destruct (Z.eqb_spec (level mod 4) 2) as [H2 | H2].
  { run_inv Hrun. injection Hrun as -> -> _.
    split; [cbn; auto |]. split; [exists []; cbn; rewrite app_nil_r; auto |].
    split; [reflexivity | lia]. }
  destruct (Z.eqb_spec (level mod 4) 3) as [H3 | H3].
  { run_inv Hrun. destruct a as [f g0]. run_inv Hrun. injection Hrun as -> -> ->.
    rewrite FencingEnemy_init_eq in Hrun0. cbv zeta in Hrun0.
    unfold lift in Hrun0. injection Hrun0 as <- <- <-.
    split; [cbn; auto |].
    split; [exists []; cbn; rewrite app_nil_r; split; [apply lose_if_hit_frame | auto] |].
    split; [contradiction | auto]. }
  assert (H0 : (level mod 4 = 0)%Z) by (pose proof (Z.mod_pos_bound level 4); lia).
  destruct (build_enemy_boss level g s e g1 s1 H0) as
    (b & fakes & -> & Hsz & _ & Hv & Hgr & Hsame & _ & _ & Hel).
  { unfold build_enemy. rewrite H0. exact Hrun. }
  unfold same_but_elements in Hsame. decompose [and] Hsame.
  split; [cbn; auto |]. split; [exists fakes; split; [assumption | contradiction] |].
  split; [auto | lia].
Qed.

Lemma enemy_of_level_set_pos (level : Z) (e : Enemy) (x y : R) :
  enemy_of_level level e -> enemy_of_level level (Enemy_set_pos e x y).
Proof. destruct e; cbn; auto. Qed.

Lemma create_enemy_changes (lvl : Z) (g : Game) (s : list Z) (g' : Game) (s' : list Z) :
  create_enemy lvl g s = Some (g', s') ->
  canvas_width g' = canvas_width g /\ canvas_height g' = canvas_height g /\
  level g' = level g /\
  waypoint g' = waypoint g /\ home g' = home g /\ player g' = player g /\
  (exists (e : Enemy) (fakes : list Home),
      enemies g' = enemies g ++ [e] /\
      enemy_of_level lvl e /\
      elements g' = elements g ++ map ElHome fakes ++ [ElEnemy (length (enemies g))] /\
      ((lvl mod 4 <> 0)%Z -> fakes = []) /\
      ((lvl mod 4 <> 3)%Z ->
       IZR (min_distance lvl)
         <= norm2 (Enemy_x e - player_x (player g)) (Enemy_y e - player_y (player g))) /\
      ((lvl mod 4 = 3)%Z ->
       Enemy_x e = home_x (home g) + 50 /\ Enemy_y e = home_y (home g) + 50)) /\
  scheduled g' = scheduled g ++ [spawn_delay lvl] /\
  ((lvl mod 4 <> 3)%Z -> status g' = status g).
Proof.
  intros Hrun. apply create_enemy_inv in Hrun.
  destruct Hrun as (e & g1 & s1 & x & y & Hb & Hp & ->).
  pose proof (build_enemy_frame _ _ _ _ _ _ Hb) as Hset.
  unfold same_setting in Hset. decompose [and] Hset.
  destruct (build_enemy_cases _ _ _ _ _ _ Hb) as (Hkind & (fakes & Hel & Hnone) & Hst & _).
  apply pick_spawn_spec in Hp.
  cbn. repeat (split; [assumption |]).
  split; [| split; [congruence | assumption]].
  exists (Enemy_set_pos e x y), fakes.
  split; [congruence |]. split; [apply enemy_of_level_set_pos, Hkind |].
  split; [rewrite Hel, <- app_assoc; do 3 f_equal; congruence |].
  split; [assumption |].
  rewrite Enemy_set_pos_x, Enemy_set_pos_y.
  destruct (Z.eqb_spec (lvl mod 4) 3) as [Hm3 | Hm3].
  - split; [contradiction |]. intros _. replace (home g) with (home g1) by assumption.
    exact Hp.
  - split; [intros _; apply Hp | contradiction].
Qed.

(** What one [create_enemy] does to the game.  The canvas, the level,
    the waypoint, the home and the player stay as they are; one enemy
    joins [enemies], of the class that goes with [level % 4], of size
    20 and with the speed of its class; the registry gets this enemy
    last, after the fake homes, which only a level with
    [level % 4 == 0] adds; one timer is added; and at a level with
    [level % 4 != 3] the status of the game stays as it is. *)
Theorem create_enemy_effect (lvl : Z) (g : Game) (s : list Z) (g' : Game) (s' : list Z) :
  create_enemy lvl g s = Some (g', s') ->
  canvas_width g' = canvas_width g /\ canvas_height g' = canvas_height g /\
  level g' = level g /\
  waypoint g' = waypoint g /\ home g' = home g /\ player g' = player g /\
  (exists (e : Enemy) (fakes : list Home),
      enemies g' = enemies g ++ [e] /\
      enemy_of_level lvl e /\
      elements g' = elements g ++ map ElHome fakes ++ [ElEnemy (length (enemies g))] /\
      ((lvl mod 4 <> 0)%Z -> fakes = [])) /\
  scheduled g' = scheduled g ++ [spawn_delay lvl] /\
  ((lvl mod 4 <> 3)%Z -> status g' = status g).
Proof.
  intros Hrun. apply create_enemy_changes in Hrun.
  destruct Hrun as (Hw & Hh & Hl & Hwp & Hhm & Hp & (e & fakes & He & Hk & Hel & Hn & _)
                    & Hs & Hst).
  repeat (split; [assumption |]).
  split; [exists e, fakes; auto | auto].
Qed.

Lemma create_enemy_effect_witness :
  player game_boss_spawned = player game_boss /\
  scheduled game_boss_spawned = scheduled game_boss ++ [spawn_delay 4] /\
  status game_boss_spawned = status game_boss.
Proof.
  pose proof (create_enemy_effect 4 game_boss boss_draws game_boss_spawned []
                create_enemy_boss_run) as H.
  destruct H as (_ & _ & _ & _ & _ & Hp & _ & Hs & Hst).
  assert (Hmod : (4 mod 4 <> 3)%Z) by discriminate.
  exact (conj Hp (conj Hs (Hst Hmod))).
Defined.

(** On a canvas without an integer point at least [min_distance] from
    the player, [create_enemy] at a level with [level % 4 != 3] never
    returns, whatever the draws: the [while True] loop goes on for
    ever. *)
Theorem create_enemy_hangs (level : Z) (g : Game) :
  (level mod 4 <> 3)%Z ->
  (forall x y : Z,
      (0 <= x <= canvas_width g)%Z -> (0 <= y <= canvas_height g)%Z ->
      norm2 (IZR x - player_x (player g)) (IZR y - player_y (player g))
        < IZR (min_distance level)) ->
  forall s : list Z, create_enemy level g s = None.
Proof.
  intros Hmod Hnear s.
  destruct (create_enemy level g s) as [[g' s'] |] eqn:E; [| reflexivity].
  apply create_enemy_inv in E.
  destruct E as (e & g1 & s1 & x & y & Hb & Hp & _).
  apply build_enemy_frame in Hb. unfold same_setting in Hb. decompose [and] Hb.
  apply pick_spawn_spec in Hp.
  destruct (Z.eqb_spec (level mod 4) 3) as [? | _]; [contradiction |].
  destruct Hp as (Hfar & rx & ry & -> & -> & Hx & Hy).
  specialize (Hnear rx ry ltac:(congruence) ltac:(congruence)). lra.
Qed.

Lemma game_small_no_room (x y : Z) :
  (0 <= x <= canvas_width game_small)%Z -> (0 <= y <= canvas_height game_small)%Z ->
  norm2 (IZR x - player_x (player game_small)) (IZR y - player_y (player game_small))
    < IZR (min_distance 1).
Proof.
  cbn. intros [Hx0 Hx1] [Hy0 Hy1]. apply IZR_le in Hx0, Hx1, Hy0, Hy1.
  apply norm2_lt_iff; [lra |]. nra.
Qed.

Lemma create_enemy_hangs_witness :
  create_enemy 1 game_small [0; 1; 100; 100; 0; 0; 50; 100]%Z = None.
Proof.
  assert (Hmod : (1 mod 4 <> 3)%Z) by discriminate.
  exact (create_enemy_hangs 1 game_small Hmod game_small_no_room _).
Defined.

(** At a level with [level % 4 == 3], [create_enemy] reads no draw, and
    it ends the game with [game_over_lose] exactly when the player is
    inside the open box of side 20 around (home.x + 55, home.y + 50),
    the place of the new enemy after the [update] of its constructor;
    otherwise the status stays as it is. *)
Theorem create_enemy_fencing_lose (level : Z) (g : Game) (s : list Z) :
  (level mod 4 = 3)%Z ->
  exists g' : Game,
    create_enemy level g s = Some (g', s) /\
    status g' =
      if hits_player (home_x (home g) + 50 + 5) (home_y (home g) + 50) 20
                     (player_x (player g)) (player_y (player g))
      then YouLose else status g.
Proof.
  intros Hmod. rewrite create_enemy_fencing_run by assumption. cbv zeta.
  eexists. split; [reflexivity |]. cbn. apply lose_if_hit_status.
Qed.

Lemma create_enemy_fencing_lose_witness :
  exists g' : Game,
    create_enemy 3 game_fence_corner [] = Some (g', []) /\ status g' = YouLose.
Proof.
  destruct (create_enemy_fencing_lose 3 game_fence_corner [] eq_refl) as (g' & Hrun & Hst).
  exists g'. split; [exact Hrun |]. rewrite Hst.
  replace (hits_player _ _ _ _ _) with true; [reflexivity |].
  symmetry. apply hits_player_open_box. cbn. lra.
Defined.

End Spawning.

Section Start.

(** A run of [create_enemy] whose last two draws are a point of the
    canvas far enough from the player, at a level with
    [level % 4 != 3]: the enemy is spawned there. *)
Lemma create_enemy_spawns_at (lvl : Z) (g : Game) (x y : Z) :
  (lvl mod 4 <> 3)%Z ->
  (0 <= x <= canvas_width g)%Z -> (0 <= y <= canvas_height g)%Z ->
  IZR (min_distance lvl)
    <= norm2 (IZR x - player_x (player g)) (IZR y - player_y (player g)) ->
  exists (pre : list Z) (e : Enemy) (g1 : Game),
    enemies g1 = enemies g /\ player g1 = player g /\
    create_enemy lvl g (pre ++ [x; y])
    = Some (after (add_enemy g1 (Enemy_set_pos e (IZR x) (IZR y))) (spawn_delay lvl), []).
Proof.
  intros Hmod Hx Hy Hfar.
  destruct (build_enemy_returns lvl g [x; y]) as (pre & e & g1 & Hb); [lia | lia |].
  pose proof (build_enemy_frame _ _ _ _ _ _ Hb) as Hset.
  unfold same_setting in Hset. decompose [and] Hset.
  exists pre, e, g1. split; [assumption |]. split; [assumption |].
  unfold create_enemy. unfold bind at 1. rewrite Hb.
  unfold bind at 1. unfold pick_spawn.
  destruct (Z.eqb_spec (lvl mod 4) 3) as [Hm3 | _]; [contradiction |].
  unfold bind at 1. rewrite spawn_loop_hit by congruence. reflexivity.
Qed.

(** The game [init_game] sets up.  The player stands at
    (50, screen_height // 2) with speed 5, the home is the box of size
    20 at (screen_width - 100, screen_height // 2), the waypoint is
    inactive, and there is one enemy, of the class of the level, and
    one timer.  The enemy was spawned before the player was put in
    place, while the turtle was at the origin: at a level with
    [level % 4 != 3] it is at least [min_distance] from the origin
    (0, 0) and the game is running.  From the player's start it can be
    nearer than [min_distance]: on a canvas at least [min_distance]
    wide, the draws that spawn the enemy at
    (min_distance, screen_height // 2) leave it [min_distance - 50]
    from the player. *)
Theorem init_game_post :
  (forall (screen_width screen_height lvl width height : Z)
          (s : list Z) (g : Game) (s' : list Z),
      init_game screen_width screen_height lvl width height s = Some (g, s') ->
      player g = mkPlayer (mkTurtle 50 (IZR (screen_height / 2)) 0) 5 /\
      home g = mkHome (IZR (screen_width - 100)) (IZR (screen_height / 2)) 20 /\
      waypoint g = mkWaypoint 0 0 false /\
      canvas_width g = width /\ canvas_height g = height /\
      scheduled g = [spawn_delay lvl] /\
      exists (e : Enemy) (fakes : list Home),
        enemies g = [e] /\
        enemy_of_level lvl e /\
        elements g =
          [ElWaypoint; ElHome (home g); ElPlayer] ++ map ElHome fakes ++ [ElEnemy 0] /\
        ((lvl mod 4 <> 3)%Z ->
         status g = Running /\
         IZR (min_distance lvl) <= norm2 (Enemy_x e) (Enemy_y e)) /\
        ((lvl mod 4 = 3)%Z ->
         Enemy_x e = IZR (screen_width - 100) + 50 /\
         Enemy_y e = IZR (screen_height / 2) + 50)) /\
  (forall screen_width screen_height lvl width height : Z,
      (lvl mod 4 <> 3)%Z ->
      (min_distance lvl <= width)%Z ->
      (0 <= screen_height / 2 <= height)%Z ->
      exists (s : list Z) (g : Game) (s' : list Z) (e : Enemy),
        init_game screen_width screen_height lvl width height s = Some (g, s') /\
        enemies g = [e] /\
        norm2 (Enemy_x e - player_x (player g)) (Enemy_y e - player_y (player g))
          = IZR (min_distance lvl) - 50 /\
        norm2 (Enemy_x e - player_x (player g)) (Enemy_y e - player_y (player g))
          < IZR (min_distance lvl)).
Proof.
  split.
  - intros screen_width screen_height lvl width height s g s'.
    unfold init_game. intros Hrun. run_inv Hrun. injection Hrun as -> ->.
    apply create_enemy_changes in Hrun0.
    destruct Hrun0 as (Hw & Hh & _ & Hwp & Hhm & Hp
                       & (e & fakes & He & Hk & Hel & _ & Hfar & Hcorner) & Hs & Hst).
    cbn in Hw, Hh, Hwp, Hhm, Hp, He, Hel, Hs, Hst, Hfar, Hcorner.
    cbn [player home waypoint canvas_width canvas_height scheduled enemies elements
         status with_player].
    rewrite Hp. cbn [turtle speed setx sety xcor ycor heading].
    repeat (split; [assumption || reflexivity |]).
    exists e, fakes. rewrite Hhm.
    split; [assumption |]. split; [assumption |]. split; [assumption |].
    split; [| assumption].
    intros Hmod. split; [apply Hst, Hmod |].
    specialize (Hfar Hmod).
    replace (Enemy_x e - 0) with (Enemy_x e) in Hfar by ring.
    replace (Enemy_y e - 0) with (Enemy_y e) in Hfar by ring.
    exact Hfar.
  - intros screen_width screen_height lvl width height Hmod Hwide Hhalf.
    assert (Hmd : (100 <= min_distance lvl)%Z) by (unfold min_distance; lia).
    pose proof (IZR_le _ _ Hmd) as Hmd'.
    set (g0 := mkGame width height lvl (mkWaypoint 0 0 false)
                 (mkHome (IZR (screen_width - 100)) (IZR (screen_height / 2)) 20)
                 (mkPlayer (mkTurtle 0 0 0) 5) []
                 [ElWaypoint;
                  ElHome (mkHome (IZR (screen_width - 100)) (IZR (screen_height / 2)) 20);
                  ElPlayer] Running []).
    destruct (create_enemy_spawns_at lvl g0 (min_distance lvl) (screen_height / 2))
      as (pre & e & g1 & Hen & Hpl & Hrun).
    + assumption.
    + cbn. lia.
    + cbn. lia.
    + cbn. apply norm2_le_iff; [lra |]. nra.
    + exists (pre ++ [min_distance lvl; (screen_height / 2)%Z]).
      eexists. exists []. exists (Enemy_set_pos e (IZR (min_distance lvl))
                                   (IZR (screen_height / 2))).
      split; [| split; [| split]].
      * unfold init_game. fold g0. unfold bind at 1. rewrite Hrun. reflexivity.
      * cbn. rewrite Hen. reflexivity.
      * rewrite Enemy_set_pos_x, Enemy_set_pos_y. cbn.
        replace (IZR (screen_height / 2) - IZR (screen_height / 2)) with 0 by ring.
        apply norm2_is; [lra | ring].
      * rewrite Enemy_set_pos_x, Enemy_set_pos_y. cbn.
        replace (IZR (screen_height / 2) - IZR (screen_height / 2)) with 0 by ring.
        apply norm2_lt_iff; [lra |]. nra.
Qed.

Lemma init_game_post_witness :
  (player game_started = mkPlayer (mkTurtle 50 (IZR (500 / 2)) 0) 5 /\
   home game_started = mkHome (IZR (800 - 100)) (IZR (500 / 2)) 20 /\
   scheduled game_started = [spawn_delay 2]) /\
  (exists (s : list Z) (g : Game) (s' : list Z) (e : Enemy),
      init_game 800 500 2 800 500 s = Some (g, s') /\
      enemies g = [e] /\
      norm2 (Enemy_x e - player_x (player g)) (Enemy_y e - player_y (player g))
        = IZR (min_distance 2) - 50 /\
      norm2 (Enemy_x e - player_x (player g)) (Enemy_y e - player_y (player g))
        < IZR (min_distance 2)).
Proof.
  split.
  - pose proof (proj1 init_game_post 800%Z 500%Z 2%Z 800%Z 500%Z _ _ _ init_game_level2) as H.
    destruct H as (Hp & Hh & _ & _ & _ & Hs & _).
    exact (conj Hp (conj Hh Hs)).
  - assert (Hmod : (2 mod 4 <> 3)%Z) by discriminate.
    assert (Hwide : (min_distance 2 <= 800)%Z) by (cbn; lia).
    assert (Hhalf : (0 <= 500 / 2 <= 500)%Z) by (cbn; lia).
    exact (proj2 init_game_post 800%Z 500%Z 2%Z 800%Z 500%Z Hmod Hwide Hhalf).
Defined.

End Start.

(** ** What is drawn and what hits *)

(** For a chasing enemy, a fencing enemy and a boss, the enemy hits the
    player exactly when the player is strictly inside the box [render]
    draws the oval in.  A random-walk enemy is drawn in another box,
    from (x - size/2, y - size/2) to (x + size, y + size): every player
    it hits is inside that box, and the point
    (x + 3 size/4, y + size/4) is inside the drawn oval and is not
    hit. *)
Theorem drawn_and_hit :
  (forall (e : ChasingEnemy) (px py : R),
      hits_player (ch_x e) (ch_y e) (ch_size e) px py = true <->
      in_box (ChasingEnemy_render e) px py) /\
  (forall (e : FencingEnemy) (px py : R),
      hits_player (fe_x e) (fe_y e) (fe_size e) px py = true <->
      in_box (FencingEnemy_render e) px py) /\
  (forall (e : BossEnemy) (px py : R),
      hits_player (bs_x e) (bs_y e) (bs_size e) px py = true <->
      in_box (BossEnemy_render e) px py) /\
  (forall (e : RandomWalkEnemy) (px py : R),
      hits_player (rw_x e) (rw_y e) (rw_size e) px py = true ->
      in_box (RandomWalkEnemy_render e) px py) /\
  (forall e : RandomWalkEnemy,
      0 < rw_size e ->
      let px := rw_x e + 3 * rw_size e / 4 in
      let py := rw_y e + rw_size e / 4 in
      in_oval (RandomWalkEnemy_render e) px py /\
      hits_player (rw_x e) (rw_y e) (rw_size e) px py = false).
Proof.
  split; [| split; [| split; [| split]]].
  - intros e px py. rewrite hits_player_open_box. reflexivity.
  - intros e px py. rewrite hits_player_open_box. reflexivity.
  - intros e px py. rewrite hits_player_open_box. reflexivity.
  - intros e px py Hhit. apply hits_player_open_box in Hhit.
    unfold in_box, RandomWalkEnemy_render. lra.
  - intros e Hsize. cbv zeta. split.
    + unfold in_oval, RandomWalkEnemy_render.
      assert (Hp : 0 < rw_size e ^ 4) by (apply pow_lt; assumption).
      match goal with |- ?l < ?r =>
        replace l with (rw_size e ^ 4 * (9 / 64)) by field;
        replace r with (rw_size e ^ 4 * (81 / 256)) by field end.
      lra.
    + apply not_true_is_false. rewrite hits_player_open_box. lra.
Qed.

Lemma drawn_and_hit_witness :
  in_oval (RandomWalkEnemy_render walker_on_edge) (800 + 3 * 20 / 4) (100 + 20 / 4) /\
  hits_player 800 100 20 (800 + 3 * 20 / 4) (100 + 20 / 4) = false.
Proof.
  assert (Hs : 0 < rw_size walker_on_edge) by (cbn; lra).
  exact (proj2 (proj2 (proj2 (proj2 drawn_and_hit))) walker_on_edge Hs).
Defined.

(** ** The orbit of the fencing enemy *)

Section FencingOrbit.

Variable hm : Home.
Variable size : R.

Lemma fe_move_grid (i j : Z) (idx : nat) :
  (idx < 4)%nat ->
  FencingEnemy_move hm (fe_grid hm size (i, j, idx))
  = Some (fe_grid hm size (grid_move (i, j, idx))).
Proof.
  intros Hidx. unfold FencingEnemy_move, fe_grid, grid_move.
  cbn [directions current_direction_index].
  destruct idx as [| [| [| [| idx]]]]; try lia;
    cbn [nth_error String.eqb Ascii.eqb Bool.eqb fe_set_x fe_set_y fe_x fe_y fe_speed
         distance_from_home].
  - destruct (Z.leb_spec 20 (i + 1)) as [Hz | Hz].
    + replace (Rleb _ _) with true.
      * unfold next_direction, fe_set_x, fe_set_y. cbn -[Z.add Z.sub IZR].
        f_equal. f_equal. rewrite plus_IZR. lra.
      * symmetry. apply Rleb_true. apply IZR_le in Hz. rewrite plus_IZR in Hz. lra.
    + replace (Rleb _ _) with false.
      * unfold fe_set_x, fe_set_y. cbn -[Z.add Z.sub IZR].
        f_equal. f_equal. rewrite plus_IZR. lra.
      * symmetry. apply Rleb_false. apply IZR_lt in Hz. rewrite plus_IZR in Hz. lra.
  - destruct (Z.leb_spec 20 (j + 1)) as [Hz | Hz].
    + replace (Rleb _ _) with true.
      * unfold next_direction, fe_set_x, fe_set_y. cbn -[Z.add Z.sub IZR].
        f_equal. f_equal. rewrite plus_IZR. lra.
      * symmetry. apply Rleb_true. apply IZR_le in Hz. rewrite plus_IZR in Hz. lra.
    + replace (Rleb _ _) with false.
      * unfold fe_set_x, fe_set_y. cbn -[Z.add Z.sub IZR].
        f_equal. f_equal. rewrite plus_IZR. lra.
      * symmetry. apply Rleb_false. apply IZR_lt in Hz. rewrite plus_IZR in Hz. lra.
  - destruct (Z.leb_spec (i - 1) 0) as [Hz | Hz].
    + replace (Rleb _ _) with true.
      * unfold next_direction, fe_set_x, fe_set_y. cbn -[Z.add Z.sub IZR].
        f_equal. f_equal. rewrite minus_IZR. lra.
      * symmetry. apply Rleb_true. apply IZR_le in Hz. rewrite minus_IZR in Hz. lra.
    + replace (Rleb _ _) with false.
      * unfold fe_set_x, fe_set_y. cbn -[Z.add Z.sub IZR].
        f_equal. f_equal. rewrite minus_IZR. lra.
      * symmetry. apply Rleb_false. apply IZR_lt in Hz. rewrite minus_IZR in Hz. lra.
  - destruct (Z.leb_spec (j - 1) 0) as [Hz | Hz].
    + replace (Rleb _ _) with true.
      * unfold next_direction, fe_set_x, fe_set_y. cbn -[Z.add Z.sub IZR].
        f_equal. f_equal. rewrite minus_IZR. lra.
      * symmetry. apply Rleb_true. apply IZR_le in Hz. rewrite minus_IZR in Hz. lra.
    + replace (Rleb _ _) with false.
      * unfold fe_set_x, fe_set_y. cbn -[Z.add Z.sub IZR].
        f_equal. f_equal. rewrite minus_IZR. lra.
      * symmetry. apply Rleb_false. apply IZR_lt in Hz. rewrite minus_IZR in Hz. lra.
Qed.

Lemma grid_move_index (c : Z * Z * nat) :
  (snd c < 4)%nat -> (snd (grid_move c) < 4)%nat.
Proof.
  destruct c as [[i j] idx]. cbn [snd]. intros Hidx. unfold grid_move.
  destruct idx as [| [| [| [| idx]]]]; try lia; cbn [snd];
    match goal with |- context [if ?b then _ else _] => destruct b end; lia.
Qed.

Lemma fe_steps_grid (n : nat) :
  forall c : Z * Z * nat,
    (snd c < 4)%nat ->
    fe_steps hm n (fe_grid hm size c) = Some (fe_grid hm size (grid_moves n c)).
Proof.
  induction n as [| n IH]; intros [[i j] idx] Hidx; [reflexivity |].
  cbn [fe_steps grid_moves]. cbn [snd] in Hidx.
  rewrite fe_move_grid by assumption.
  apply IH. apply (grid_move_index (i, j, idx)). assumption.
Qed.

Lemma grid_moves_add (m n : nat) (c : Z * Z * nat) :
  grid_moves (m + n) c = grid_moves n (grid_moves m c).
Proof.
  revert c. induction m as [| m IH]; intros c; cbn; [reflexivity | apply IH].
Qed.

Lemma on_square_move (c : Z * Z * nat) : on_square c -> on_square (grid_move c).
Proof.
  destruct c as [[i j] idx]. unfold on_square, grid_move.
  destruct idx as [| [| [| [| idx]]]]; try contradiction; intros H;
    match goal with |- context [(?a <=? ?b)%Z] => destruct (Z.leb_spec a b) end;
    lia.
Qed.

Lemma on_square_moves (n : nat) :
  forall c : Z * Z * nat, on_square c -> on_square (grid_moves n c).
Proof.
  induction n as [| n IH]; intros c Hc; [assumption |].
  cbn. apply IH, on_square_move, Hc.
Qed.

Lemma on_square_box (c : Z * Z * nat) :
  on_square c ->
  Rabs (fe_x (fe_grid hm size c) - home_x hm) <= 50 /\
  Rabs (fe_y (fe_grid hm size c) - home_y hm) <= 50.
Proof.
  destruct c as [[i j] idx]. unfold on_square. cbn.
  assert (Hb : forall k : Z, (0 <= k <= 20)%Z -> 0 <= IZR k <= 20).
  { intros k [H0 H1]. apply IZR_le in H0, H1. lra. }
  intros H.
  assert (Hi : (0 <= i <= 20)%Z /\ (0 <= j <= 20)%Z)
    by (destruct idx as [| [| [| [| idx]]]]; try contradiction; lia).
  destruct Hi as [Hi Hj]. apply Hb in Hi, Hj.
  split; apply Rabs_le; lra.
Qed.

Lemma fe_grid_placed :
  mkFencing (home_x hm + 50) (home_y hm + 50) size 5
            ["right"; "down"; "left"; "up"]%string 1 50
  = fe_grid hm size (20%Z, 20%Z, 1%nat).
Proof. unfold fe_grid. f_equal; lra. Qed.

(** The orbit of the fencing enemy [create_enemy] has put on the corner
    (home.x + 50, home.y + 50): after 22 updates it is at
    (home.x - 50, home.y + 50), going up, and from then on it walks
    the square of half-side 50 around the home, never more than 50
    from the home on either axis, and is back at the same place with
    the same direction every 80 updates. *)
Theorem fencing_orbit :
  let placed := mkFencing (home_x hm + 50) (home_y hm + 50) size 5
                          ["right"; "down"; "left"; "up"]%string 1 50 in
  fe_steps hm 22 placed
    = Some (mkFencing (home_x hm - 50) (home_y hm + 50) size 5
                      ["right"; "down"; "left"; "up"]%string 3 50) /\
  forall n : nat,
    exists e : FencingEnemy,
      fe_steps hm (22 + n) placed = Some e /\
      Rabs (fe_x e - home_x hm) <= 50 /\
      Rabs (fe_y e - home_y hm) <= 50 /\
      fe_steps hm (22 + n + 80) placed = Some e.
Proof.
  cbv zeta. rewrite fe_grid_placed. split.
  - rewrite fe_steps_grid by (cbn; lia).
    replace (grid_moves 22 (20%Z, 20%Z, 1%nat)) with (0%Z, 20%Z, 3%nat)
      by (vm_compute; reflexivity).
    unfold fe_grid. do 2 f_equal; lra.
  - intros n. rewrite !fe_steps_grid by (cbn; lia).
    exists (fe_grid hm size (grid_moves (22 + n) (20%Z, 20%Z, 1%nat))).
    assert (Hsq : on_square (grid_moves (22 + n) (20%Z, 20%Z, 1%nat))).
    { rewrite grid_moves_add. apply on_square_moves.
      replace (grid_moves 22 (20%Z, 20%Z, 1%nat)) with (0%Z, 20%Z, 3%nat)
        by (vm_compute; reflexivity).
      cbn. lia. }
    split; [reflexivity |].
    split; [apply on_square_box, Hsq |]. split; [apply on_square_box, Hsq |].
    f_equal. f_equal.
    replace (22 + n + 80)%nat with (22 + 80 + n)%nat by lia.
    rewrite (grid_moves_add (22 + 80) n), (grid_moves_add 22 n).
    replace (grid_moves (22 + 80) (20%Z, 20%Z, 1%nat))
      with (grid_moves 22 (20%Z, 20%Z, 1%nat)) by (vm_compute; reflexivity).
    reflexivity.
Qed.

End FencingOrbit.

(** ** The floors of the level-dependent numbers *)

(** The minimum spawn distance is never below 100 and does not grow
    with the level; it is at its floor of 100 exactly from level 15 on,
    and the rescheduling delay is at its floor of 200 ms exactly from
    level 80 on, so that from level 80 on neither changes any more. *)
Theorem level_floors (lvl : Z) :
  (100 <= min_distance lvl)%Z /\
  (forall lvl' : Z, (lvl <= lvl')%Z -> (min_distance lvl' <= min_distance lvl)%Z) /\
  (min_distance lvl = 100%Z <-> (15 <= lvl)%Z) /\
  (spawn_delay lvl = 200%Z <-> (80 <= lvl)%Z).
Proof.
  unfold min_distance, spawn_delay. repeat split; intros; lia.
Qed.

Lemma level_floors_witness :
  (min_distance 20 <= min_distance 3)%Z /\ min_distance 20 = 100%Z.
Proof.
  destruct (level_floors 3) as (_ & Hmono & _).
  destruct (level_floors 20) as (_ & _ & Hfloor & _).
  assert (H1 : (3 <= 20)%Z) by lia.
  assert (H2 : (15 <= 20)%Z) by lia.
  exact (conj (Hmono 20%Z H1) (proj2 Hfloor H2)).
Defined.
